(** * Security Event Ledger: a shallow embedding in Rocq

    Covers [src/core/block.js], [src/core/blockchain.js], [src/config.js]
    (BLOCKCHAIN_CONFIG, INTEGRITY_CONFIG), the three monitoring agents
    (files, network ports, local accounts) and the queue / mining / intake
    routes of [src/server.js].

    The cryptographic digest ([crypto.createHash("sha256")...digest("hex")])
    and [JSON.stringify] are library functions, not code of the repository:
    they are section parameters.  Properties that depend on them (collision
    freedom) are explicit hypotheses of the theorems that need them. *)

From Stdlib Require Import String Ascii List Bool Arith Lia ZArith.
From Stdlib Require DecimalString DecimalNat Decimal.
Set Warnings "-register-all".
Import ListNotations.
Open Scope string_scope.

(* ------------------------------------------------------------------ *)
(** ** String helpers (JS string builtins) *)

(** [s.startsWith(p)] *)
Definition startsWith (s p : string) : bool := String.prefix p s.

(** ["0".repeat(n)] *)
Fixpoint repeat_str (s : string) (n : nat) : string :=
  match n with
  | O => ""
  | S k => s ++ repeat_str s k
  end.

(** [`${n}`] for a non-negative integer [n]: its decimal rendering. *)
Definition num_to_string (n : nat) : string :=
  DecimalString.NilZero.string_of_uint (Nat.to_uint n).

(** [src/config.js]: [BLOCKCHAIN_CONFIG.difficulty]. *)
Definition BLOCKCHAIN_CONFIG_difficulty : nat := 2.

(** The genesis timestamp [new Date("2024-01-01T00:00:00.000Z").toISOString()]. *)
Definition genesis_timestamp : string := "2024-01-01T00:00:00.000Z".

(* ------------------------------------------------------------------ *)
(** ** [src/core/block.js] and [src/core/blockchain.js] *)

Module Ledger.
Section Ledger.

(** The block payload: any JS value ([data]). *)
Context {D : Type}.
(** [JSON.stringify] on payloads. *)
Variable JSON_stringify : D -> string.
(** [crypto.createHash("sha256").update(s).digest("hex")]. *)
Variable sha256 : string -> string.
(** The payload of the genesis block, [{ message: "Genesis Block" }]. *)
Variable genesis_data : D.

Record Block := mkBlock {
  index : nat;
  timestamp : string;
  data : D;
  previousHash : string;
  nonce : nat;
  hash : string
}.

(** [Block.calculateHash({ index, timestamp, data, previousHash, nonce })] *)
Definition calculateHash (index : nat) (timestamp : string) (data : D)
    (previousHash : string) (nonce : nat) : string :=
  sha256 (num_to_string index ++ timestamp ++ JSON_stringify data
          ++ previousHash ++ num_to_string nonce).

(** [new Block({ index, timestamp, data, previousHash, nonce, hash })]:
    [this.hash = hash || Block.calculateHash(...)]. *)
Definition newBlock (index : nat) (timestamp : string) (data : D)
    (previousHash : string) (nonce : nat) (hash : string) : Block :=
  mkBlock index timestamp data previousHash nonce
    (if String.eqb hash "" then calculateHash index timestamp data previousHash nonce
     else hash).

(** [Block.genesis()] *)
Definition genesis : Block :=
  newBlock 0 genesis_timestamp genesis_data "0" 0 "".

(** The [do { nonce += 1; hash = ... } while (!hash.startsWith(prefix))]
    loop of [Block.mineBlock].  The JS loop is unbounded; [fuel] bounds the
    number of iterations and [None] means the loop has not finished. *)
Fixpoint mine_loop (fuel : nat) (index : nat) (timestamp : string) (data : D)
    (previousHash : string) (prefix : string) (nonce : nat) : option (nat * string) :=
  match fuel with
  | O => None
  | S fuel' =>
      let nonce' := S nonce in
      let h := calculateHash index timestamp data previousHash nonce' in
      if startsWith h prefix then Some (nonce', h)
      else mine_loop fuel' index timestamp data previousHash prefix nonce'
  end.

(** [Block.mineBlock(previousBlock, data)]; [timestamp] is the wall-clock
    value [new Date().toISOString()] read at the call. *)
Definition mineBlock (fuel : nat) (previousBlock : Block) (timestamp : string)
    (data : D) : option Block :=
  let index := S (index previousBlock) in
  let prefix := repeat_str "0" BLOCKCHAIN_CONFIG_difficulty in
  match mine_loop fuel index timestamp data (hash previousBlock) prefix 0 with
  | Some (nonce, h) => Some (newBlock index timestamp data (hash previousBlock) nonce h)
  | None => None
  end.

(** [new Blockchain()]: [this.chain = [Block.genesis()]]. *)
Definition initialChain : list Block := [genesis].

(** [get latestBlock()]: [this.chain[this.chain.length - 1]]. *)
Definition latestBlock (chain : list Block) : Block := last chain genesis.

(** [addBlock(data)]: mines on top of the latest block and pushes. *)
Definition addBlock (fuel : nat) (timestamp : string) (data : D)
    (chain : list Block) : option (Block * list Block) :=
  match mineBlock fuel (latestBlock chain) timestamp data with
  | Some newBlock => Some (newBlock, (chain ++ [newBlock])%list)
  | None => None
  end.

(** A sequence of [addBlock] calls, each with its timestamp and payload. *)
Fixpoint addBlocks (fuel : nat) (calls : list (string * D)) (chain : list Block)
    : option (list Block) :=
  match calls with
  | [] => Some chain
  | (ts, d) :: calls' =>
      match addBlock fuel ts d chain with
      | Some (_, chain') => addBlocks fuel calls' chain'
      | None => None
      end
  end.

(** The body of the [for (let i = 1; i < this.chain.length; i += 1)] loop
    of [isValid()], walking the pairs [(chain[i-1], chain[i])]. *)
Fixpoint isValid_from (previous : Block) (rest : list Block) : bool :=
  match rest with
  | [] => true
  | current :: rest' =>
      if negb (String.eqb (previousHash current) (hash previous)) then false
      else
        let recalculatedHash :=
          calculateHash (index current) (timestamp current) (data current)
            (previousHash current) (nonce current) in
        if negb (String.eqb (hash current) recalculatedHash) then false
        else isValid_from current rest'
  end.

(** [isValid()] *)
Definition isValid (chain : list Block) : bool :=
  match chain with
  | [] => true
  | first :: rest => isValid_from first rest
  end.

(** Out-of-band mutation of one stored field of a block
    ([chain.chain[i].data = ...] and the like). *)
Inductive field_update :=
| SetIndex (n : nat)
| SetTimestamp (s : string)
| SetData (d : D)
| SetPreviousHash (s : string)
| SetNonce (n : nat)
| SetHash (s : string).

Definition apply_update (u : field_update) (b : Block) : Block :=
  match u with
  | SetIndex n => mkBlock n (timestamp b) (data b) (previousHash b) (nonce b) (hash b)
  | SetTimestamp s => mkBlock (index b) s (data b) (previousHash b) (nonce b) (hash b)
  | SetData d => mkBlock (index b) (timestamp b) d (previousHash b) (nonce b) (hash b)
  | SetPreviousHash s => mkBlock (index b) (timestamp b) (data b) s (nonce b) (hash b)
  | SetNonce n => mkBlock (index b) (timestamp b) (data b) (previousHash b) n (hash b)
  | SetHash s => mkBlock (index b) (timestamp b) (data b) (previousHash b) (nonce b) s
  end.

(** [chain[i] = f(chain[i])] for an index in range. *)
Fixpoint update_at {A} (i : nat) (f : A -> A) (l : list A) : list A :=
  match l, i with
  | [], _ => []
  | x :: l', O => f x :: l'
  | x :: l', S i' => x :: update_at i' f l'
  end.

(** A lowercase hex digest, as [digest("hex")] returns. *)
Definition is_hex_char (c : ascii) : bool :=
  let n := nat_of_ascii c in
  (((48 <=? n) && (n <=? 57)) || ((97 <=? n) && (n <=? 102)))%nat.

Fixpoint is_hex (s : string) : bool :=
  match s with
  | EmptyString => true
  | String c s' => is_hex_char c && is_hex s'
  end.

End Ledger.
End Ledger.

(* ------------------------------------------------------------------ *)
(** ** JS values and events *)

Module Js.

(** The JS values the code handles (request bodies, event details).
    [JSObj] lists an object's own properties in order, keys distinct. *)
Inductive jsval :=
| JSUndefined
| JSNull
| JSBool (b : bool)
| JSNum (z : Z)
| JSStr (s : string)
| JSArr (elems : list jsval)
| JSObj (props : list (string * jsval)).

(** [obj.key]: the property, or [undefined]; arrays, strings and other
    values have none of the properties the code reads. *)
Definition get (v : jsval) (key : string) : jsval :=
  match v with
  | JSObj props =>
      match find (fun kv => String.eqb (fst kv) key) props with
      | Some (_, x) => x
      | None => JSUndefined
      end
  | _ => JSUndefined
  end.

(** [typeof v] *)
Definition typeof (v : jsval) : string :=
  match v with
  | JSUndefined => "undefined"
  | JSNull => "object"
  | JSBool _ => "boolean"
  | JSNum _ => "number"
  | JSStr _ => "string"
  | JSArr _ => "object"
  | JSObj _ => "object"
  end.

(** [v != null] (loose: false for both [null] and [undefined]). *)
Definition not_nullish (v : jsval) : bool :=
  match v with
  | JSUndefined | JSNull => false
  | _ => true
  end.

(** [v ?? dflt] *)
Definition nullish_or (v dflt : jsval) : jsval :=
  if not_nullish v then v else dflt.

Definition isArray (v : jsval) : bool :=
  match v with JSArr _ => true | _ => false end.

(** Whitespace removed by [String.prototype.trim] (ASCII part). *)
Definition is_space (c : ascii) : bool :=
  let n := nat_of_ascii c in
  ((n =? 32) || ((9 <=? n) && (n <=? 13)))%nat.

Fixpoint trim_start (s : string) : string :=
  match s with
  | EmptyString => EmptyString
  | String c s' => if is_space c then trim_start s' else s
  end.

Definition rev_string (s : string) : string :=
  string_of_list_ascii (rev (list_ascii_of_string s)).

(** [s.trim()] *)
Definition trim (s : string) : string :=
  rev_string (trim_start (rev_string (trim_start s))).

End Js.

Import Js.

Module Events.

(** A security event, as pushed into [pendingEvents]. *)
Record Event := mkEvent {
  type : string;
  source : string;
  severity : string;
  message : string;
  timestamp : string;
  details : jsval
}.

Definition event_to_js (e : Event) : jsval :=
  JSObj [("type", JSStr (type e)); ("source", JSStr (source e));
         ("severity", JSStr (severity e)); ("message", JSStr (message e));
         ("timestamp", JSStr (timestamp e)); ("details", details e)].

End Events.

Import Events.

(* ------------------------------------------------------------------ *)
(** ** JS [Map] and [Set] as insertion-ordered association lists *)

Module JsMap.
Section JsMap.
Context {V : Type}.

Definition t := list (string * V).

(** [m.get(k)] *)
Definition get (k : string) (m : t) : option V :=
  match find (fun kv => String.eqb (fst kv) k) m with
  | Some (_, v) => Some v
  | None => None
  end.

(** [m.has(k)] *)
Definition has (k : string) (m : t) : bool :=
  match get k m with Some _ => true | None => false end.

(** [m.set(k, v)]: updates in place, or appends a new key. *)
Fixpoint set (k : string) (v : V) (m : t) : t :=
  match m with
  | [] => [(k, v)]
  | (k', v') :: m' => if String.eqb k' k then (k', v) :: m' else (k', v') :: set k v m'
  end.

(** [for (const [key, value] of src.entries()) m.set(key, value)] *)
Definition set_all (src m : t) : t :=
  fold_left (fun acc kv => set (fst kv) (snd kv) acc) src m.

End JsMap.
End JsMap.

(* ------------------------------------------------------------------ *)
(** ** Monitoring agents ([src/agents/*.js], duplicated in [src/server.js]) *)

(** Network ports agent, [runNetworkCheck]. *)
Module NetworkAgent.

(** [{ proto, localAddress, port: portStr, pid }]; [pid] is a netstat
    column, [undefined] when the line is short. *)
Record PortInfo := mkPortInfo {
  proto : string;
  localAddress : string;
  port : string;
  pid : jsval
}.

Definition port_to_js (p : PortInfo) : jsval :=
  JSObj [("proto", JSStr (proto p)); ("localAddress", JSStr (localAddress p));
         ("port", JSStr (port p)); ("pid", pid p)].

(** A [Map] from [proto:ip:port] to the listener. *)
Definition PortMap := @JsMap.t PortInfo.

(** [runNetworkCheck(emitEvent)].  [current] is what
    [getCurrentListeningPorts()] returned ([None] for [null]) and
    [lastListeningPorts] the baseline before the poll.  Returns the
    baseline after the poll and the events emitted, in order. *)
Definition runNetworkCheck (now : string) (current : option PortMap)
    (lastListeningPorts : PortMap) : PortMap * list Event :=
  match current with
  | None =>
      (lastListeningPorts,
       [mkEvent "network_check_error" "net-agent" "high"
          "Failed to read current listening ports" now (JSObj [])])
  | Some current =>
      if Nat.eqb (length lastListeningPorts) 0 then
        (JsMap.set_all current lastListeningPorts,
         [mkEvent "network_baseline" "net-agent" "info"
            "Initial listening ports baseline recorded" now
            (JSObj [("listening", JSArr (map (fun kv => port_to_js (snd kv)) current))])])
      else
        let newListening :=
          map snd (filter (fun kv => negb (JsMap.has (fst kv) lastListeningPorts)) current) in
        let closed :=
          map snd (filter (fun kv => negb (JsMap.has (fst kv) current)) lastListeningPorts) in
        if Nat.eqb (length newListening) 0 && Nat.eqb (length closed) 0 then
          (lastListeningPorts, [])
        else
          (* [lastListeningPorts.clear()], then one [set] per entry *)
          (JsMap.set_all current [],
           [mkEvent "network_port_change" "net-agent" "medium"
              "Changes in listening network ports detected" now
              (JSObj [("newListening", JSArr (map port_to_js newListening));
                      ("closed", JSArr (map port_to_js closed))])])
  end.

End NetworkAgent.

(** Local accounts agent, [runAccountCheck]. *)
Module AccountAgent.

(** [lastAccounts = { users: Set, admins: Set }]; a [Set] of names as an
    insertion-ordered list without duplicates. *)
Record Accounts := mkAccounts {
  users : list string;
  admins : list string
}.

(** [set.has(x)] *)
Definition set_has (x : string) (s : list string) : bool := existsb (String.eqb x) s.

(** [runAccountCheck(emitEvent)].  [curUsers] and [curAdmins] are what
    [getLocalUsers()] and [getLocalAdmins()] returned ([None] for [null]). *)
Definition runAccountCheck (now : string) (curUsers curAdmins : option (list string))
    (lastAccounts : Accounts) : Accounts * list Event :=
  match curUsers, curAdmins with
  | Some curUsers, Some curAdmins =>
      if Nat.eqb (length (users lastAccounts)) 0 && Nat.eqb (length (admins lastAccounts)) 0 then
        (mkAccounts curUsers curAdmins,
         [mkEvent "account_baseline" "identity-agent" "info"
            "Initial local accounts baseline recorded" now
            (JSObj [("users", JSArr (map JSStr curUsers));
                    ("admins", JSArr (map JSStr curAdmins))])])
      else
        let newUsers := filter (fun u => negb (set_has u (users lastAccounts))) curUsers in
        let removedUsers := filter (fun u => negb (set_has u curUsers)) (users lastAccounts) in
        let newAdmins := filter (fun a => negb (set_has a (admins lastAccounts))) curAdmins in
        let removedAdmins := filter (fun a => negb (set_has a curAdmins)) (admins lastAccounts) in
        if Nat.eqb (length newUsers) 0 && Nat.eqb (length removedUsers) 0
           && Nat.eqb (length newAdmins) 0 && Nat.eqb (length removedAdmins) 0 then
          (lastAccounts, [])
        else
          (mkAccounts curUsers curAdmins,
           [mkEvent "account_membership_change" "identity-agent" "high"
              "Changes in local users or administrators detected" now
              (JSObj [("newUsers", JSArr (map JSStr newUsers));
                      ("removedUsers", JSArr (map JSStr removedUsers));
                      ("newAdmins", JSArr (map JSStr newAdmins));
                      ("removedAdmins", JSArr (map JSStr removedAdmins))])])
  | _, _ =>
      (lastAccounts,
       [mkEvent "account_check_error" "identity-agent" "high"
          "Failed to read local users or administrators" now (JSObj [])])
  end.

End AccountAgent.

(** File integrity agent, [runFileIntegrityCheck]. *)
Module FileAgent.

(** [lastFileHashes]: a [Map] from file path to hex digest. *)
Definition HashMap := @JsMap.t string.

(** The inner [for (const filePath of files)] loop: each file comes with
    the result of [computeFileHash(filePath)] ([None] for [null]). *)
Fixpoint process_files (now : string) (files : list (string * option string))
    (lastFileHashes : HashMap) : HashMap * list Event :=
  match files with
  | [] => (lastFileHashes, [])
  | (filePath, hash) :: files' =>
      match hash with
      | None =>
          let '(m, evs) := process_files now files' lastFileHashes in
          (m, mkEvent "file_integrity_error" "file-agent" "high"
                ("Unable to read file: " ++ filePath) now
                (JSObj [("path", JSStr filePath)]) :: evs)
      | Some hash =>
          match JsMap.get filePath lastFileHashes with
          | Some previousHash =>
              if String.eqb previousHash hash then process_files now files' lastFileHashes
              else
                let '(m, evs) :=
                  process_files now files' (JsMap.set filePath hash lastFileHashes) in
                (m, mkEvent "file_integrity_change" "file-agent" "high"
                      ("File content changed: " ++ filePath) now
                      (JSObj [("path", JSStr filePath); ("oldHash", JSStr previousHash);
                              ("newHash", JSStr hash)]) :: evs)
          | None =>
              let '(m, evs) :=
                process_files now files' (JsMap.set filePath hash lastFileHashes) in
              (m, mkEvent "file_integrity_baseline" "file-agent" "info"
                    ("Baseline hash recorded for " ++ filePath) now
                    (JSObj [("path", JSStr filePath); ("hash", JSStr hash)]) :: evs)
          end
      end
  end.

(** [runFileIntegrityCheck(emitEvent)]: [scan] lists, for each root of
    [INTEGRITY_CONFIG.roots] in order, the files [collectFilesUnderRoot]
    found under it, with their digests. *)
Fixpoint runFileIntegrityCheck (now : string)
    (scan : list (list (string * option string))) (lastFileHashes : HashMap)
    : HashMap * list Event :=
  match scan with
  | [] => (lastFileHashes, [])
  | files :: scan' =>
      let '(m, evs) := process_files now files lastFileHashes in
      let '(m', evs') := runFileIntegrityCheck now scan' m in
      (m', (evs ++ evs')%list)
  end.

End FileAgent.

(* ------------------------------------------------------------------ *)
(** ** [src/server.js]: the ledger service *)

Module Server.
Import NetworkAgent AccountAgent FileAgent.
Section Server.

(** [JSON.stringify] and the SHA-256 hex digest, as for the ledger. *)
Variable JSON_stringify : jsval -> string.
Variable sha256 : string -> string.

(** [{ message: "Genesis Block" }] *)
Definition genesis_data : jsval := JSObj [("message", JSStr "Genesis Block")].

Local Abbreviation Block := (@Ledger.Block jsval).

(** The module-level state of [server.js]. *)
Record State := mkState {
  chain : list Block;
  pendingEvents : list Event;
  lastFileHashes : HashMap;
  lastListeningPorts : PortMap;
  lastAccounts : Accounts
}.

(** Process start: [new Blockchain()], empty queue, empty baselines. *)
Definition initialState : State :=
  mkState (Ledger.initialChain JSON_stringify sha256 genesis_data) [] [] []
    (mkAccounts [] []).

(** The array [pendingEvents] handed to [chain.addBlock]. *)
Definition payload_of (evs : list Event) : jsval := JSArr (map event_to_js evs).

(** [minePendingEventsIfAny()]; [None] when the mining loop has not
    finished within [fuel] iterations. *)
Definition minePendingEventsIfAny (fuel : nat) (now : string) (st : State) : option State :=
  if Nat.eqb (length (pendingEvents st)) 0 then Some st
  else
    match Ledger.addBlock JSON_stringify sha256 genesis_data fuel now
            (payload_of (pendingEvents st)) (chain st) with
    | Some (_, chain') =>
        Some (mkState chain' [] (lastFileHashes st) (lastListeningPorts st) (lastAccounts st))
    | None => None
    end.

(** Response bodies of the routes. *)
Inductive Body :=
| BodyError (error : string)
| BodyQueued (event : Event)
| BodyBlock (block : Block)
| BodyPending (count : nat) (events : list Event).

Record Response := mkResponse { status : nat; body : Body }.

(** [POST /mine] *)
Definition post_mine (fuel : nat) (now : string) (st : State) : option (Response * State) :=
  if Nat.eqb (length (pendingEvents st)) 0 then
    Some (mkResponse 400 (BodyError "No pending events to mine"), st)
  else
    match Ledger.addBlock JSON_stringify sha256 genesis_data fuel now
            (payload_of (pendingEvents st)) (chain st) with
    | Some (block, chain') =>
        Some (mkResponse 201 (BodyBlock block),
              mkState chain' [] (lastFileHashes st) (lastListeningPorts st) (lastAccounts st))
    | None => None
    end.

(** The double-quote character. *)
Definition dq : string := String (ascii_of_nat 34) EmptyString.

(** [validateEvent(body)]: an error message, or [None] for [null]. *)
Definition validateEvent (body : jsval) : option string :=
  if negb (String.eqb (typeof body) "object") || match body with JSNull => true | _ => false end then
    Some "Request body must be a JSON object"
  else if negb (String.eqb (typeof (get body "type")) "string")
          || match get body "type" with JSStr t => String.eqb (trim t) "" | _ => false end then
    Some ("Field " ++ dq ++ "type" ++ dq ++ " is required and must be a non-empty string")
  else if negb (String.eqb (typeof (get body "source")) "string")
          || match get body "source" with JSStr t => String.eqb (trim t) "" | _ => false end then
    Some ("Field " ++ dq ++ "source" ++ dq ++ " is required and must be a non-empty string")
  else if not_nullish (get body "severity")
          && negb (String.eqb (typeof (get body "severity")) "string") then
    Some ("Field " ++ dq ++ "severity" ++ dq ++ ", if provided, must be a string")
  else if not_nullish (get body "message")
          && negb (String.eqb (typeof (get body "message")) "string") then
    Some ("Field " ++ dq ++ "message" ++ dq ++ ", if provided, must be a string")
  else if not_nullish (get body "details")
          && (negb (String.eqb (typeof (get body "details")) "object")
              || isArray (get body "details")) then
    Some ("Field " ++ dq ++ "details" ++ dq ++ ", if provided, must be an object")
  else None.

(** A string-typed value ([validateEvent] has checked the type). *)
Definition as_string (v : jsval) : string :=
  match v with JSStr s => s | _ => "" end.

(** [POST /events] *)
Definition post_events (now : string) (reqBody : jsval) (st : State) : Response * State :=
  match validateEvent reqBody with
  | Some error => (mkResponse 400 (BodyError error), st)
  | None =>
      let event :=
        mkEvent (as_string (get reqBody "type")) (as_string (get reqBody "source"))
          (as_string (nullish_or (get reqBody "severity") (JSStr "info")))
          (as_string (nullish_or (get reqBody "message") (JSStr "")))
          now (nullish_or (get reqBody "details") (JSObj [])) in
      (mkResponse 202 (BodyQueued event),
       mkState (chain st) (pendingEvents st ++ [event])%list (lastFileHashes st)
         (lastListeningPorts st) (lastAccounts st))
  end.

(** [GET /pending] *)
Definition get_pending (st : State) : Response :=
  mkResponse 200 (BodyPending (length (pendingEvents st)) (pendingEvents st)).

End Server.
End Server.

(* ------------------------------------------------------------------ *)
(** ** [src/server.js]: the scheduled agents and the read-only routes *)

Module ServerOps.
Import NetworkAgent AccountAgent FileAgent Server.
Section ServerOps.

Variable JSON_stringify : jsval -> string.
Variable sha256 : string -> string.

(** The agents as [server.js] runs them on its timers: each pushes its
    events onto [pendingEvents] and updates its module-level baseline. *)
Definition network_tick (now : string) (current : option PortMap) (st : State) : State :=
  let '(m, evs) := runNetworkCheck now current (lastListeningPorts st) in
  mkState (chain st) (pendingEvents st ++ evs)%list (lastFileHashes st) m (lastAccounts st).

Definition account_tick (now : string) (users admins : option (list string)) (st : State)
    : State :=
  let '(a, evs) := runAccountCheck now users admins (lastAccounts st) in
  mkState (chain st) (pendingEvents st ++ evs)%list (lastFileHashes st)
    (lastListeningPorts st) a.

Definition file_tick (now : string) (scan : list (list (string * option string)))
    (st : State) : State :=
  let '(m, evs) := runFileIntegrityCheck now scan (lastFileHashes st) in
  mkState (chain st) (pendingEvents st ++ evs)%list m (lastListeningPorts st)
    (lastAccounts st).

(** [GET /verify]: [{ valid: chain.isValid(), length: chain.chain.length }] *)
Definition get_verify (st : State) : bool * nat :=
  (Ledger.isValid JSON_stringify sha256 (chain st), length (chain st)).

(** [GET /health]: [{ status: "ok", valid, length }] *)
Definition get_health (st : State) : string * bool * nat :=
  ("ok", Ledger.isValid JSON_stringify sha256 (chain st), length (chain st)).

(** What can happen to the state of the process: a request to one of the
    routes that change it, or a timer callback.  Each runs to completion
    on the single JS thread. *)
Inductive Op :=
| PostEvents (now : string) (body : jsval)
| PostMine (now : string)
| AutoMine (now : string)
| NetworkTick (now : string) (current : option PortMap)
| AccountTick (now : string) (users admins : option (list string))
| FileTick (now : string) (scan : list (list (string * option string))).

(** One operation; [None] when a mining loop has not finished within
    [fuel] iterations. *)
Definition step (fuel : nat) (op : Op) (st : State) : option State :=
  match op with
  | PostEvents now body => Some (snd (post_events now body st))
  | PostMine now =>
      match post_mine JSON_stringify sha256 fuel now st with
      | Some (_, st') => Some st'
      | None => None
      end
  | AutoMine now => minePendingEventsIfAny JSON_stringify sha256 fuel now st
  | NetworkTick now current => Some (network_tick now current st)
  | AccountTick now users admins => Some (account_tick now users admins st)
  | FileTick now scan => Some (file_tick now scan st)
  end.

Fixpoint run (fuel : nat) (ops : list Op) (st : State) : option State :=
  match ops with
  | [] => Some st
  | op :: ops' =>
      match step fuel op st with
      | Some st' => run fuel ops' st'
      | None => None
      end
  end.

End ServerOps.
End ServerOps.

(* ------------------------------------------------------------------ *)
(** ** Text splitting ([String.prototype.split]) *)

Module JsText.

(** [output.split(/\r?\n/)]: a ["\r"] right before a ["\n"] belongs to
    the separator. [cur] holds the current line, reversed. *)
Fixpoint split_lines_aux (cs cur : list ascii) : list (list ascii) :=
  match cs with
  | [] => [rev cur]
  | c :: cs' =>
      if Ascii.eqb c (ascii_of_nat 10) then
        (match cur with
         | c' :: cur' => if Ascii.eqb c' (ascii_of_nat 13) then rev cur' else rev cur
         | [] => []
         end) :: split_lines_aux cs' []
      else split_lines_aux cs' (c :: cur)
  end.

Definition split_lines (s : string) : list string :=
  map string_of_list_ascii (split_lines_aux (list_ascii_of_string s) []).

(** [s.split(/\s+/)]: a run of whitespace is one separator. [in_sep]
    says the previous character was whitespace. *)
Fixpoint split_ws_aux (cs cur : list ascii) (in_sep : bool) : list (list ascii) :=
  match cs with
  | [] => [rev cur]
  | c :: cs' =>
      if is_space c then
        if in_sep then split_ws_aux cs' [] true
        else rev cur :: split_ws_aux cs' [] true
      else split_ws_aux cs' (c :: cur) false
  end.

Definition split_ws (s : string) : list string :=
  map string_of_list_ascii (split_ws_aux (list_ascii_of_string s) [] false).

(** [s.split(sep)] for a one-character separator. *)
Fixpoint split_char_aux (sep : ascii) (cs cur : list ascii) : list (list ascii) :=
  match cs with
  | [] => [rev cur]
  | c :: cs' =>
      if Ascii.eqb c sep then rev cur :: split_char_aux sep cs' []
      else split_char_aux sep cs' (c :: cur)
  end.

Definition split_char (sep : ascii) (s : string) : list string :=
  map string_of_list_ascii (split_char_aux sep (list_ascii_of_string s) []).

(** [s.includes(c)] for a one-character [c]. *)
Definition includes_char (s : string) (c : ascii) : bool :=
  existsb (fun x => Ascii.eqb x c) (list_ascii_of_string s).

End JsText.

Import JsText.

(* ------------------------------------------------------------------ *)
(** ** The snapshot readers of the agents *)

(** [getCurrentListeningPorts()]: parses the output of [netstat -ano]. *)
Module Netstat.
Import NetworkAgent.

(** The body of the [for (const line of lines)] loop up to
    [ports.set(key, ...)]: [None] where the loop [continue]s. *)
Definition parse_line (line : string) : option (string * PortInfo) :=
  let trimmed := trim line in
  if negb (startsWith trimmed "TCP") && negb (startsWith trimmed "UDP") then None
  else
    let parts := split_ws trimmed in
    if (length parts <? 4)%nat then None
    else
      let proto := nth 0 parts "" in
      let local := nth 1 parts "" in
      (* [state] is [null] for UDP; [parts[4]] may be [undefined] *)
      let state := if String.eqb proto "TCP" then nth_error parts 3 else None in
      let pid := if String.eqb proto "TCP" then nth_error parts 4 else nth_error parts 3 in
      if String.eqb proto "TCP"
         && negb (match state with Some s => String.eqb s "LISTENING" | None => false end)
      then None
      else
        (* [const [localAddress, portStr] = local.split(":")] *)
        let fields := split_char ":" local in
        match nth_error fields 0, nth_error fields 1 with
        | Some localAddress, Some portStr =>
            if String.eqb localAddress "" || String.eqb portStr "" then None
            else
              Some (proto ++ ":" ++ localAddress ++ ":" ++ portStr,
                    mkPortInfo proto localAddress portStr
                      (match pid with Some p => JSStr p | None => JSUndefined end))
        | _, _ => None
        end.

(** [getCurrentListeningPorts()]: [output] is what [execSync("netstat -ano")]
    returned, [None] when it threw (the function then returns [null]). *)
Definition getCurrentListeningPorts (output : option string) : option PortMap :=
  match output with
  | None => None
  | Some out =>
      Some (fold_left (fun ports line =>
                         match parse_line line with
                         | Some (key, v) => JsMap.set key v ports
                         | None => ports
                         end) (split_lines out) [])
  end.

End Netstat.

(** [getLocalUsers()] and [getLocalAdmins()]: parse the output of
    [net user] and [net localgroup administrators]. *)
Module NetUser.
Import AccountAgent.

(** [set.add(x)] on an insertion-ordered set. *)
Definition set_add (x : string) (s : list string) : list string :=
  if set_has x s then s else (s ++ [x])%list.

Definition dash : ascii := "-"%char.

(** The [for (const line of lines)] loop of [getLocalUsers]; [break]
    returns the set built so far. *)
Fixpoint users_loop (lines : list string) (inList : bool) (users : list string)
    : list string :=
  match lines with
  | [] => users
  | line :: lines' =>
      if includes_char line dash then users_loop lines' true users
      else if negb inList then users_loop lines' inList users
      else
        let trimmed := trim line in
        if String.eqb trimmed "" then users_loop lines' inList users
        else if startsWith trimmed "The command" then users
        else
          users_loop lines' inList
            (fold_left (fun s p => if String.eqb p "" then s else set_add p s)
               (split_ws trimmed) users)
  end.

(** [getLocalUsers()]; [output] is [None] when [execSync] threw. *)
Definition getLocalUsers (output : option string) : option (list string) :=
  match output with
  | None => None
  | Some out => Some (users_loop (split_lines out) false [])
  end.

(** The loop of [getLocalAdmins]: one member per line. *)
Fixpoint admins_loop (lines : list string) (inList : bool) (admins : list string)
    : list string :=
  match lines with
  | [] => admins
  | line :: lines' =>
      if includes_char line dash then admins_loop lines' true admins
      else if negb inList then admins_loop lines' inList admins
      else
        let trimmed := trim line in
        if String.eqb trimmed "" then admins_loop lines' inList admins
        else if startsWith trimmed "The command" then admins
        else admins_loop lines' inList (set_add trimmed admins)
  end.

(** [getLocalAdmins()] *)
Definition getLocalAdmins (output : option string) : option (list string) :=
  match output with
  | None => None
  | Some out => Some (admins_loop (split_lines out) false [])
  end.

End NetUser.

(** [collectFilesUnderRoot(rootPath, excludeDirs)] over a directory tree. *)
Module FileScan.
Section FileScan.

(** [path.join(dir, name)] and [path.basename(p)] (Node's [path] module). *)
Variable join : string -> string -> string.
Variable basename : string -> string.

(** What [fs.statSync] / a [Dirent] reports: a regular file, a directory
    (with its entries, [None] when [fs.readdirSync] throws), or anything
    else (a symbolic link seen as a [Dirent], a socket, ...). *)
Inductive fsnode :=
| FFile
| FDir (entries : option (list (string * fsnode)))
| FOther.

(** [walk(currentPath)] on the node found there. *)
Fixpoint walk (excludeDirs : list string) (currentPath : string) (node : fsnode)
    : list string :=
  match node with
  | FFile => [currentPath]
  | FOther => []
  | FDir entries =>
      if existsb (String.eqb (basename currentPath)) excludeDirs then []
      else
        match entries with
        | None => []
        | Some es =>
            (fix go (es : list (string * fsnode)) : list string :=
               match es with
               | [] => []
               | (name, n) :: es' =>
                   let fullPath := join currentPath name in
                   ((match n with
                     | FDir _ => walk excludeDirs fullPath n
                     | FFile => [fullPath]
                     | FOther => []
                     end) ++ go es')%list
               end) es
        end
  end.

(** [collectFilesUnderRoot(rootPath, excludeDirs)]; [root] is what
    [fs.statSync(rootPath)] sees (following links), [None] when it throws. *)
Definition collectFilesUnderRoot (rootPath : string) (root : option fsnode)
    (excludeDirs : list string) : list string :=
  match root with
  | None => []
  | Some n => walk excludeDirs rootPath n
  end.

End FileScan.
End FileScan.

(* ------------------------------------------------------------------ *)
(** ** Facts about strings and decimal rendering *)

Module StringFacts.

Lemma append_cancel_l (s a b : string) : s ++ a = s ++ b -> a = b.
Proof. induction s as [|c s IH]; simpl; [auto | intros H; injection H; auto]. Qed.

Lemma list_ascii_of_string_append (a b : string) :
  list_ascii_of_string (a ++ b) = (list_ascii_of_string a ++ list_ascii_of_string b)%list.
Proof. induction a as [|c a IH]; simpl; [reflexivity | now rewrite IH]. Qed.

Lemma append_cancel_r (s a b : string) : a ++ s = b ++ s -> a = b.
Proof.
  intros H. apply (f_equal list_ascii_of_string) in H.
  rewrite !list_ascii_of_string_append in H.
  apply app_inv_tail in H.
  rewrite <- (string_of_list_ascii_of_string a), <- (string_of_list_ascii_of_string b).
  now rewrite H.
Qed.

Lemma to_uint_not_nil (n : nat) : Nat.to_uint n <> Decimal.Nil.
Proof.
  intros H. destruct n as [|n].
  - discriminate H.
  - pose proof (DecimalNat.Unsigned.of_to (S n)) as E.
    rewrite H in E. discriminate E.
Qed.

Lemma num_to_string_inj (n m : nat) : num_to_string n = num_to_string m -> n = m.
Proof.
  unfold num_to_string. intros H.
  pose proof (DecimalString.NilZero.usu _ (to_uint_not_nil n)) as Hn.
  pose proof (DecimalString.NilZero.usu _ (to_uint_not_nil m)) as Hm.
  rewrite H in Hn. rewrite Hn in Hm. injection Hm as Hm.
  now apply DecimalNat.Unsigned.to_uint_inj.
Qed.

End StringFacts.

(* ------------------------------------------------------------------ *)
(** ** Ledger proofs *)

Module LedgerProofs.
Import Ledger.
Section LedgerProofs.

Context {D : Type}.
Variable JSON_stringify : D -> string.
Variable sha256 : string -> string.
Variable genesis_data : D.

Local Abbreviation Block := (@Ledger.Block D).
Local Abbreviation calculateHash := (@Ledger.calculateHash D JSON_stringify sha256).
Local Abbreviation isValid_from := (@Ledger.isValid_from D JSON_stringify sha256).
Local Abbreviation isValid := (@Ledger.isValid D JSON_stringify sha256).
Local Abbreviation mine_loop := (@Ledger.mine_loop D JSON_stringify sha256).
Local Abbreviation mineBlock := (@Ledger.mineBlock D JSON_stringify sha256).
Local Abbreviation genesis := (@Ledger.genesis D JSON_stringify sha256 genesis_data).
Local Abbreviation addBlock := (@Ledger.addBlock D JSON_stringify sha256 genesis_data).
Local Abbreviation initialChain := (@Ledger.initialChain D JSON_stringify sha256 genesis_data).
Local Abbreviation addBlocks := (@Ledger.addBlocks D JSON_stringify sha256 genesis_data).

(** The stored hash of a block equals the hash recomputed from its fields. *)
Definition hash_consistent (b : Block) : Prop :=
  hash b = calculateHash (index b) (timestamp b) (data b) (previousHash b) (nonce b).

Lemma isValid_from_cons (p c : Block) (rest : list Block) :
  isValid_from p (c :: rest) =
  String.eqb (previousHash c) (hash p)
  && String.eqb (hash c) (calculateHash (index c) (timestamp c) (data c) (previousHash c) (nonce c))
  && isValid_from c rest.
Proof.
  simpl. destruct (String.eqb (previousHash c) (hash p)); simpl; [|reflexivity].
  destruct (String.eqb (hash c) _); reflexivity.
Qed.

Lemma mineBlock_fields (fuel : nat) (prev : Block) (ts : string) (d : D) (b : Block) :
  mineBlock fuel prev ts d = Some b ->
  index b = S (index prev) /\ timestamp b = ts /\ data b = d /\ previousHash b = hash prev.
Proof.
  unfold Ledger.mineBlock.
  destruct (mine_loop _ _ _ _ _ _ _) as [[n h]|]; [|discriminate].
  intros F; injection F as <-. repeat split.
Qed.

Lemma last_cons (A : Type) (x y : A) (l : list A) : last (x :: l) y = last l x.
Proof.
  revert x y. induction l as [|z l IH]; intros x y; [reflexivity|].
  change (last (x :: z :: l) y) with (last (z :: l) y).
  rewrite !IH. reflexivity.
Qed.

Lemma isValid_from_app (p : Block) (l1 l2 : list Block) :
  isValid_from p (l1 ++ l2) = isValid_from p l1 && isValid_from (last l1 p) l2.
Proof.
  revert p. induction l1 as [|c l1 IH]; intros p; simpl app.
  - reflexivity.
  - rewrite !isValid_from_cons, IH.
    rewrite last_cons. now rewrite !andb_assoc.
Qed.

Lemma isValid_from_single (p b : Block) :
  previousHash b = hash p -> hash_consistent b -> isValid_from p [b] = true.
Proof.
  intros Hp Hh. rewrite isValid_from_cons, <- Hh, Hp, !String.eqb_refl. reflexivity.
Qed.

Lemma mine_loop_spec (fuel i : nat) (ts : string) (d : D) (ph pre : string)
    (n n' : nat) (h : string) :
  mine_loop fuel i ts d ph pre n = Some (n', h) ->
  h = calculateHash i ts d ph n' /\ startsWith h pre = true /\ n < n' /\
  (forall m, n < m < n' -> startsWith (calculateHash i ts d ph m) pre = false).
Proof.
  revert n. induction fuel as [|fuel IH]; intros n; simpl; [discriminate|].
  destruct (startsWith (calculateHash i ts d ph (S n)) pre) eqn:Hs.
  - intros E; injection E as <- <-. repeat split; auto; intros m Hm; lia.
  - intros E. destruct (IH (S n) E) as (Hh & Hpre & Hlt & Hmin).
    repeat split; auto; [lia|].
    intros m Hm. destruct (Nat.eq_dec m (S n)) as [->|Hne]; [exact Hs|].
    apply Hmin. lia.
Qed.

Lemma newBlock_consistent (i : nat) (ts : string) (d : D) (ph : string) (n : nat) :
  hash_consistent (newBlock JSON_stringify sha256 i ts d ph n (calculateHash i ts d ph n)).
Proof.
  unfold hash_consistent, newBlock; simpl.
  destruct (String.eqb _ ""); reflexivity.
Qed.

Lemma mineBlock_link (fuel : nat) (prev : Block) (ts : string) (d : D) (b : Block) :
  mineBlock fuel prev ts d = Some b -> previousHash b = hash prev /\ hash_consistent b.
Proof.
  unfold Ledger.mineBlock.
  destruct (mine_loop _ _ _ _ _ _ _) as [[n h]|] eqn:E; [|discriminate].
  intros F; injection F as <-.
  apply mine_loop_spec in E. destruct E as (-> & _).
  split; [reflexivity | apply newBlock_consistent].
Qed.

Lemma addBlock_valid (fuel : nat) (ts : string) (d : D) (g : Block) (rest : list Block)
    (b : Block) (c' : list Block) :
  isValid (g :: rest) = true -> addBlock fuel ts d (g :: rest) = Some (b, c') ->
  c' = g :: (rest ++ [b])%list /\ isValid c' = true.
Proof.
  unfold Ledger.addBlock, Ledger.latestBlock.
  destruct (mineBlock _ _ _ _) as [nb|] eqn:E; [|discriminate].
  intros Hv F; injection F as <- <-.
  rewrite last_cons in E. apply mineBlock_link in E. destruct E as [Hp Hh].
  split; [reflexivity|].
  simpl in *. rewrite isValid_from_app, Hv. simpl.
  now apply isValid_from_single.
Qed.

Lemma addBlocks_valid (fuel : nat) (calls : list (string * D)) (g : Block)
    (rest : list Block) (c : list Block) :
  isValid (g :: rest) = true -> addBlocks fuel calls (g :: rest) = Some c ->
  (exists rest', c = g :: rest') /\ isValid c = true.
Proof.
  revert rest. induction calls as [|[ts d] calls IH]; intros rest Hv; simpl.
  - intros E; injection E as <-. eauto.
  - destruct (addBlock fuel ts d (g :: rest)) as [[b c']|] eqn:E; [|discriminate].
    destruct (addBlock_valid _ _ _ _ _ _ _ Hv E) as [-> Hv'].
    now apply IH.
Qed.


Lemma update_at_app {A} (f : A -> A) (l1 l2 : list A) (x : A) :
  update_at (length l1) f (l1 ++ x :: l2)%list = (l1 ++ f x :: l2)%list.
Proof. induction l1 as [|y l1 IH]; simpl; [reflexivity | now rewrite IH]. Qed.

(** A block whose stored fields link to [p] and reproduce its stored hash
    fails the check of [isValid] once any single field is changed. *)
Lemma mutation_detected
    (Hsha : forall s1 s2, sha256 s1 = sha256 s2 -> s1 = s2)
    (Hjs : forall d1 d2, JSON_stringify d1 = JSON_stringify d2 -> d1 = d2)
    (p b : Block) (u : field_update) (l2 : list Block) :
  previousHash b = hash p -> hash_consistent b -> apply_update u b <> b ->
  isValid_from p (apply_update u b :: l2) = false.
Proof.
  intros Hp Hh Hne. rewrite isValid_from_cons.
  destruct b as [i ts d ph n h]; unfold hash_consistent in Hh; simpl in Hp, Hh.
  subst ph. unfold Ledger.calculateHash in *.
  destruct u as [i'|ts'|d'|ph'|n'|h']; simpl in *.
  - rewrite String.eqb_refl; simpl.
    replace (String.eqb h _) with false; [reflexivity|].
    symmetry; apply String.eqb_neq; intros E. rewrite Hh in E.
    apply Hsha, StringFacts.append_cancel_r, StringFacts.num_to_string_inj in E.
    congruence.
  - rewrite String.eqb_refl; simpl.
    replace (String.eqb h _) with false; [reflexivity|].
    symmetry; apply String.eqb_neq; intros E. rewrite Hh in E.
    apply Hsha, StringFacts.append_cancel_l, StringFacts.append_cancel_r in E.
    congruence.
  - rewrite String.eqb_refl; simpl.
    replace (String.eqb h _) with false; [reflexivity|].
    symmetry; apply String.eqb_neq; intros E. rewrite Hh in E.
    apply Hsha, StringFacts.append_cancel_l, StringFacts.append_cancel_l,
      StringFacts.append_cancel_r, Hjs in E.
    congruence.
  - replace (String.eqb ph' (hash p)) with false; [reflexivity|].
    symmetry; apply String.eqb_neq; congruence.
  - rewrite String.eqb_refl; simpl.
    replace (String.eqb h _) with false; [reflexivity|].
    symmetry; apply String.eqb_neq; intros E. rewrite Hh in E.
    apply Hsha, StringFacts.append_cancel_l, StringFacts.append_cancel_l,
      StringFacts.append_cancel_l, StringFacts.append_cancel_l,
      StringFacts.num_to_string_inj in E.
    congruence.
  - rewrite String.eqb_refl; simpl.
    replace (String.eqb h' _) with false; [reflexivity|].
    symmetry; apply String.eqb_neq; intros E. rewrite <- Hh in E.
    congruence.
Qed.

(** ** C1: chain integrity *)

(** C1: every chain built from [new Blockchain()] by [addBlock] calls (any
    timestamps and payloads, each mining loop having finished) passes
    [isValid()]; and, the digest and [JSON.stringify] being collision free,
    changing any single stored field (index, timestamp, data, previousHash,
    nonce or hash) of any single non-genesis block makes [isValid()] return
    false. *)
Theorem chain_integrity
    (Hsha : forall s1 s2, sha256 s1 = sha256 s2 -> s1 = s2)
    (Hjs : forall d1 d2, JSON_stringify d1 = JSON_stringify d2 -> d1 = d2)
    (fuel : nat) (calls : list (string * D)) (c : list Block) :
  addBlocks fuel calls initialChain = Some c ->
  isValid c = true /\
  (forall (i : nat) (u : field_update),
     1 <= i < length c ->
     apply_update u (nth i c genesis) <> nth i c genesis ->
     isValid (update_at i (apply_update u) c) = false).
Proof.
  intros E.
  destruct (addBlocks_valid fuel calls genesis [] c eq_refl E) as [[rest ->] Hv].
  split; [exact Hv|].
  intros [|j] u Hi Hne; [lia|]. simpl in Hi, Hne |- *.
  assert (Hj : j < length rest) by lia.
  destruct (nth_split rest genesis Hj) as (l1 & l2 & Hrest & Hlen).
  set (b := nth j rest genesis) in *. clearbody b. subst rest j.
  rewrite update_at_app.
  simpl in Hv. rewrite isValid_from_app in Hv |- *.
  apply andb_true_iff in Hv as [_ Hv].
  rewrite isValid_from_cons in Hv.
  apply andb_true_iff in Hv as [Hv _]. apply andb_true_iff in Hv as [Hp Hh].
  apply String.eqb_eq in Hp, Hh.
  rewrite (mutation_detected Hsha Hjs _ _ _ _ Hp Hh Hne).
  apply andb_false_r.
Qed.


(** ** C2: the mined block *)

(** C2: a block returned by [Block.mineBlock(previous, data)] has index
    [previous.index + 1] and previousHash [previous.hash]; its hash is a hex
    digest (as [digest("hex")] returns) whose first
    [BLOCKCHAIN_CONFIG.difficulty] characters are ['0']; its nonce is the
    first one, counting up from 1, whose digest has that prefix; and its
    stored hash is the digest recomputed from its own stored fields. *)
Theorem mineBlock_correct
    (Hhex : forall s, is_hex (sha256 s) = true)
    (fuel : nat) (previous : Block) (ts : string) (d : D) (b : Block) :
  mineBlock fuel previous ts d = Some b ->
  index b = S (index previous) /\
  previousHash b = hash previous /\
  is_hex (hash b) = true /\
  substring 0 BLOCKCHAIN_CONFIG_difficulty (hash b)
    = repeat_str "0" BLOCKCHAIN_CONFIG_difficulty /\
  1 <= nonce b /\
  (forall m, 1 <= m < nonce b ->
     startsWith (calculateHash (index b) (timestamp b) (data b) (previousHash b) m)
       (repeat_str "0" BLOCKCHAIN_CONFIG_difficulty) = false) /\
  hash b = calculateHash (index b) (timestamp b) (data b) (previousHash b) (nonce b).
Proof.
  unfold Ledger.mineBlock.
  destruct (mine_loop _ _ _ _ _ _ _) as [[n h]|] eqn:E; [|discriminate].
  intros F; injection F as <-.
  apply mine_loop_spec in E. destruct E as (Hh & Hpre & Hlt & Hmin).
  unfold newBlock; simpl.
  destruct (String.eqb h "") eqn:He.
  - apply String.eqb_eq in He. subst h.
    unfold startsWith in Hpre. rewrite He in Hpre. vm_compute in Hpre. discriminate.
  - split; [reflexivity|]. split; [reflexivity|].
    split; [rewrite Hh; apply Hhex|].
    split; [apply (proj1 (prefix_correct (repeat_str "0" BLOCKCHAIN_CONFIG_difficulty) h)); exact Hpre|].
    split; [lia|].
    split; [intros m Hm; apply Hmin; lia|].
    exact Hh.
Qed.

(** ** C10: the genesis block is never recomputed *)

(** C10: [isValid()] starts at position 1 and never recomputes the hash of
    the block at position 0: changing any stored field of that block other
    than [hash] leaves the result of [isValid()] as it was, and a chain of
    one block is valid whatever that block holds. *)
Theorem genesis_fields_unchecked (c : list Block) (u : field_update)
    (Hu : forall s, u <> SetHash s) :
  isValid (update_at 0 (apply_update u) c) = isValid c /\
  (forall g : Block, isValid [g] = true).
Proof.
  split; [|reflexivity].
  destruct c as [|g rest]; [reflexivity|]. simpl.
  destruct rest as [|b rest]; [reflexivity|].
  rewrite !isValid_from_cons.
  destruct u; try reflexivity.
  exfalso; eapply Hu; reflexivity.
Qed.

End LedgerProofs.
End LedgerProofs.

(* ------------------------------------------------------------------ *)
(** ** Facts about [JsMap] *)

Module JsMapFacts.
Section JsMapFacts.
Context {V : Type}.

Lemma get_set_eq (k : string) (v : V) (m : JsMap.t) : JsMap.get k (JsMap.set k v m) = Some v.
Proof.
  induction m as [|[k' v'] m IH]; simpl.
  - unfold JsMap.get; simpl. now rewrite String.eqb_refl.
  - destruct (String.eqb k' k) eqn:E; unfold JsMap.get in *; simpl; rewrite ?E; auto.
Qed.

Lemma get_set_neq (k k' : string) (v : V) (m : JsMap.t) :
  k' <> k -> JsMap.get k' (JsMap.set k v m) = JsMap.get k' m.
Proof.
  intros Hne. induction m as [|[k0 v0] m IH]; simpl.
  - unfold JsMap.get; simpl. destruct (String.eqb_spec k k'); [congruence|reflexivity].
  - destruct (String.eqb k0 k) eqn:E; unfold JsMap.get in *; simpl.
    + apply String.eqb_eq in E; subst k0.
      destruct (String.eqb_spec k k'); [congruence|reflexivity].
    + destruct (String.eqb k0 k'); [reflexivity|exact IH].
Qed.

Lemma get_none_not_in (k : string) (m : @JsMap.t V) :
  JsMap.get k m = None <-> ~ In k (map fst m).
Proof.
  induction m as [|[k0 v0] m IH]; unfold JsMap.get in *; simpl; [tauto|].
  destruct (String.eqb_spec k0 k) as [->|Hne]; [split; [discriminate|tauto]|].
  rewrite IH. intuition.
Qed.

Lemma set_absent (k : string) (v : V) (m : JsMap.t) :
  ~ In k (map fst m) -> JsMap.set k v m = (m ++ [(k, v)])%list.
Proof.
  induction m as [|[k0 v0] m IH]; simpl; [reflexivity|].
  intros Hn. destruct (String.eqb_spec k0 k) as [->|_]; [tauto|].
  rewrite IH; [reflexivity|tauto].
Qed.

Lemma set_all_fresh (src acc : @JsMap.t V) :
  NoDup (map fst src) -> (forall k, In k (map fst src) -> ~ In k (map fst acc)) ->
  JsMap.set_all src acc = (acc ++ src)%list.
Proof.
  unfold JsMap.set_all. revert acc.
  induction src as [|[k v] src IH]; intros acc Hnd Hfresh; simpl.
  - now rewrite app_nil_r.
  - inversion Hnd as [|? ? Hk Hnd']; subst.
    rewrite set_absent by (apply Hfresh; simpl; auto).
    rewrite IH; [now rewrite <- app_assoc|exact Hnd'|].
    intros k' Hk'. rewrite map_app, in_app_iff. simpl.
    intros [H|[H|H]]; [exact (Hfresh k' (or_intror Hk') H)|subst; tauto|exact H].
Qed.

Lemma set_all_nil (src : @JsMap.t V) : NoDup (map fst src) -> JsMap.set_all src [] = src.
Proof. intros H. apply set_all_fresh; [exact H | simpl; tauto]. Qed.

End JsMapFacts.
End JsMapFacts.

(* ------------------------------------------------------------------ *)
(** ** Agent proofs *)

Module AgentProofs.
Import NetworkAgent AccountAgent FileAgent.

Lemma NoDup_app_disjoint {A} (l1 l2 : list A) (a : A) :
  NoDup (l1 ++ l2) -> In a l1 -> ~ In a l2.
Proof.
  induction l1 as [|x l1 IH]; simpl; [tauto|].
  intros Hnd [->|Hin].
  - inversion Hnd as [|? ? Hx _]. rewrite in_app_iff in Hx. tauto.
  - inversion Hnd; auto.
Qed.

(** *** File agent *)

(** The baseline a list of processed files leaves, step by step as the
    loop of [runFileIntegrityCheck] updates it. *)
Fixpoint file_updates (files : list (string * option string)) (last : HashMap) : HashMap :=
  match files with
  | [] => last
  | (_, None) :: files' => file_updates files' last
  | (p, Some h) :: files' =>
      file_updates files'
        (match JsMap.get p last with
         | Some prev => if String.eqb prev h then last else JsMap.set p h last
         | None => JsMap.set p h last
         end)
  end.

(** Where a path occurs in a scan, with its digest result. *)
Definition lookup_file (p : string) (files : list (string * option string))
    : option (option string) :=
  match find (fun e => String.eqb (fst e) p) files with
  | Some (_, o) => Some o
  | None => None
  end.

Lemma lookup_file_absent (p : string) (files : list (string * option string)) :
  ~ In p (map fst files) -> lookup_file p files = None.
Proof.
  induction files as [|[q o] files IH]; unfold lookup_file in *; simpl; [reflexivity|].
  intros Hn. destruct (String.eqb_spec q p); [tauto|]. apply IH; tauto.
Qed.

Lemma file_updates_app (a b : list (string * option string)) (last : HashMap) :
  file_updates (a ++ b) last = file_updates b (file_updates a last).
Proof.
  induction a as [|[p [h|]] a IH] in last |- *; simpl; auto.
Qed.

Lemma process_files_fst (now : string) (files : list (string * option string)) (last : HashMap) :
  fst (process_files now files last) = file_updates files last.
Proof.
  induction files as [|[p [h|]] files IH] in last |- *; simpl; [reflexivity| |].
  - destruct (JsMap.get p last) as [prev|].
    + destruct (String.eqb prev h); [apply IH|].
      destruct (process_files now files (JsMap.set p h last)) as [m evs] eqn:E.
      simpl. rewrite <- IH, E. reflexivity.
    + destruct (process_files now files (JsMap.set p h last)) as [m evs] eqn:E.
      simpl. rewrite <- IH, E. reflexivity.
  - destruct (process_files now files last) as [m evs] eqn:E.
    simpl. rewrite <- IH, E. reflexivity.
Qed.

Lemma runFile_fst (now : string) (scan : list (list (string * option string))) (last : HashMap) :
  fst (runFileIntegrityCheck now scan last) = file_updates (concat scan) last.
Proof.
  induction scan as [|files scan IH] in last |- *; simpl; [reflexivity|].
  destruct (process_files now files last) as [m evs] eqn:E.
  destruct (runFileIntegrityCheck now scan m) as [m' evs'] eqn:E'.
  simpl. rewrite file_updates_app.
  rewrite <- (process_files_fst now files last), E. simpl.
  rewrite <- IH, E'. reflexivity.
Qed.

Lemma file_updates_get (files : list (string * option string)) (last : HashMap) (p : string) :
  NoDup (map fst files) ->
  JsMap.get p (file_updates files last) =
  match lookup_file p files with
  | Some (Some h) => Some h
  | _ => JsMap.get p last
  end.
Proof.
  induction files as [|[q o] files IH] in last |- *; intros Hnd; [reflexivity|].
  simpl in Hnd. inversion Hnd as [|? ? Hq Hnd']; subst.
  unfold lookup_file; simpl.
  destruct (String.eqb_spec q p) as [->|Hne].
  - destruct o as [h|]; simpl; rewrite (IH _ Hnd'), (lookup_file_absent p files Hq);
      [|reflexivity].
    destruct (JsMap.get p last) as [prev|] eqn:Eg.
    + destruct (String.eqb_spec prev h) as [->|_]; [exact Eg|].
      apply JsMapFacts.get_set_eq.
    + apply JsMapFacts.get_set_eq.
  - fold (lookup_file p files).
    destruct o as [h|]; simpl; rewrite (IH _ Hnd'); [|reflexivity].
    destruct (lookup_file p files) as [[h'|]|]; [reflexivity| |];
      (destruct (JsMap.get q last) as [prev|];
       [destruct (String.eqb prev h); [reflexivity|] |];
       apply JsMapFacts.get_set_neq; congruence).
Qed.

(** The event a file gets on its first sighting. *)
Definition first_poll_event (now : string) (f : string * option string) : Event :=
  let '(p, o) := f in
  match o with
  | None => mkEvent "file_integrity_error" "file-agent" "high"
              ("Unable to read file: " ++ p) now (JSObj [("path", JSStr p)])
  | Some h => mkEvent "file_integrity_baseline" "file-agent" "info"
                ("Baseline hash recorded for " ++ p) now
                (JSObj [("path", JSStr p); ("hash", JSStr h)])
  end.

(** The readable files of a scan with their digests. *)
Definition readable (files : list (string * option string)) : HashMap :=
  flat_map (fun f => match snd f with Some h => [(fst f, h)] | None => [] end) files.

Lemma readable_keys (files : list (string * option string)) (k : string) :
  In k (map fst (readable files)) -> In k (map fst files).
Proof.
  induction files as [|[p [h|]] files IH]; simpl; auto.
  intros [->|H]; auto.
Qed.

Lemma process_files_fresh (now : string) (files : list (string * option string)) (last : HashMap) :
  NoDup (map fst files) -> (forall k, In k (map fst files) -> ~ In k (map fst last)) ->
  process_files now files last = ((last ++ readable files)%list, map (first_poll_event now) files).
Proof.
  induction files as [|[p o] files IH] in last |- *; intros Hnd Hfresh; simpl.
  - now rewrite app_nil_r.
  - simpl in Hnd. inversion Hnd as [|? ? Hp Hnd']; subst.
    assert (Hf : forall k, In k (map fst files) -> ~ In k (map fst last))
      by (intros k Hk; apply Hfresh; simpl; auto).
    destruct o as [h|].
    + assert (Hg : JsMap.get p last = None)
        by (apply JsMapFacts.get_none_not_in, Hfresh; simpl; auto).
      rewrite Hg, JsMapFacts.set_absent by (apply Hfresh; simpl; auto).
      rewrite IH; [now rewrite <- app_assoc|exact Hnd'|].
      intros k Hk. rewrite map_app, in_app_iff. simpl.
      intros [H|[H|H]]; [exact (Hf k Hk H)|subst; tauto|exact H].
    + rewrite IH by assumption. reflexivity.
Qed.

Lemma runFile_fresh (now : string) (scan : list (list (string * option string))) (last : HashMap) :
  NoDup (map fst (concat scan)) ->
  (forall k, In k (map fst (concat scan)) -> ~ In k (map fst last)) ->
  runFileIntegrityCheck now scan last =
  ((last ++ readable (concat scan))%list, map (first_poll_event now) (concat scan)).
Proof.
  induction scan as [|files scan IH] in last |- *; intros Hnd Hfresh; simpl.
  - now rewrite app_nil_r.
  - simpl in Hnd, Hfresh. rewrite map_app in Hnd, Hfresh.
    rewrite process_files_fresh; [| eapply NoDup_app_remove_r; eauto |].
    2: { intros k Hk. apply Hfresh. rewrite in_app_iff. auto. }
    rewrite IH; [| eapply NoDup_app_remove_l; eauto |].
    + unfold readable. rewrite flat_map_app, map_app, app_assoc. reflexivity.
    + intros k Hk. rewrite map_app, in_app_iff.
      intros [H|H].
      * exact (Hfresh k (proj2 (in_app_iff _ _ _) (or_intror Hk)) H).
      * apply readable_keys in H.
        exact (NoDup_app_disjoint _ _ _ Hnd H Hk).
Qed.

Lemma lookup_file_in (p : string) (o : option string) (files : list (string * option string)) :
  NoDup (map fst files) -> In (p, o) files -> lookup_file p files = Some o.
Proof.
  induction files as [|[q o'] files IH]; simpl; [tauto|].
  intros Hnd Hin. inversion Hnd as [|? ? Hq Hnd']; subst.
  unfold lookup_file; simpl. destruct (String.eqb_spec q p) as [->|Hne].
  - destruct Hin as [E|Hin]; [congruence|].
    exfalso; apply Hq. apply (in_map fst) in Hin. exact Hin.
  - destruct Hin as [E|Hin]; [congruence|]. apply IH; assumption.
Qed.

(** The error event of an unreadable file. *)
Definition file_error_event (now p : string) : Event :=
  mkEvent "file_integrity_error" "file-agent" "high"
    ("Unable to read file: " ++ p) now (JSObj [("path", JSStr p)]).

Lemma process_files_error_in (now p : string) (files : list (string * option string))
    (last : HashMap) :
  In (p, None) files -> In (file_error_event now p) (snd (process_files now files last)).
Proof.
  induction files as [|[q o] files IH] in last |- *; simpl; [tauto|].
  intros [E|Hin].
  - injection E as -> ->.
    destruct (process_files now files last) as [m evs]; simpl; auto.
  - destruct o as [h|].
    + destruct (JsMap.get q last) as [prev|].
      * destruct (String.eqb prev h); [apply IH; exact Hin|].
        specialize (IH (JsMap.set q h last) Hin).
        destruct (process_files now files (JsMap.set q h last)); simpl in *; auto.
      * specialize (IH (JsMap.set q h last) Hin).
        destruct (process_files now files (JsMap.set q h last)); simpl in *; auto.
    + specialize (IH last Hin).
      destruct (process_files now files last); simpl in *; auto.
Qed.

Lemma runFile_error_in (now p : string) (scan : list (list (string * option string)))
    (last : HashMap) :
  In (p, None) (concat scan) ->
  In (file_error_event now p) (snd (runFileIntegrityCheck now scan last)).
Proof.
  induction scan as [|files scan IH] in last |- *; simpl; [tauto|].
  intros Hin. pose proof (process_files_error_in now p files last) as Hp.
  destruct (process_files now files last) as [m evs] eqn:E.
  specialize (IH m).
  destruct (runFileIntegrityCheck now scan m) as [m' evs'] eqn:E'. simpl in *.
  apply in_app_iff in Hin as [Hin|Hin]; apply in_app_iff; auto.
Qed.

(** *** Network and account agents *)

Lemma has_in {V} (k : string) (m : @JsMap.t V) : JsMap.has k m = true <-> In k (map fst m).
Proof.
  unfold JsMap.has. pose proof (JsMapFacts.get_none_not_in k m) as H.
  destruct (JsMap.get k m); split; intros; auto; try discriminate.
  - destruct (in_dec string_dec k (map fst m)) as [Hi|Hi]; [exact Hi|].
    apply H in Hi. discriminate.
  - exfalso. apply (proj1 H); auto.
Qed.

Lemma filter_length_zero {A} (f : A -> bool) (l : list A) (x : A) :
  length (filter f l) = 0 -> In x l -> f x = false.
Proof.
  intros H Hin. apply length_zero_iff_nil in H.
  destruct (f x) eqn:E; [|reflexivity].
  assert (In x (filter f l)) by (apply filter_In; auto). rewrite H in *. contradiction.
Qed.

Lemma same_keys {V W} (m : @JsMap.t V) (c : @JsMap.t W) :
  (forall kv, In kv c -> JsMap.has (fst kv) m = true) ->
  (forall kv, In kv m -> JsMap.has (fst kv) c = true) ->
  forall k, JsMap.has k m = JsMap.has k c.
Proof.
  intros H1 H2 k.
  destruct (JsMap.has k c) eqn:Ec, (JsMap.has k m) eqn:Em; auto.
  - apply has_in in Ec. apply in_map_iff in Ec as [[k' v] [<- Hin]].
    rewrite H1 in Em by exact Hin. discriminate.
  - apply has_in in Em. apply in_map_iff in Em as [[k' v] [<- Hin]].
    rewrite H2 in Ec by exact Hin. discriminate.
Qed.

Lemma set_has_in (x : string) (l : list string) : set_has x l = true <-> In x l.
Proof.
  unfold set_has. rewrite existsb_exists. split.
  - intros [y [Hy E]]. apply String.eqb_eq in E. now subst.
  - intros H. exists x. split; [exact H | apply String.eqb_refl].
Qed.

Lemma same_members (a b : list string) :
  (forall x, In x b -> set_has x a = true) -> (forall x, In x a -> set_has x b = true) ->
  forall x, set_has x a = set_has x b.
Proof.
  intros H1 H2 x.
  destruct (set_has x b) eqn:Eb, (set_has x a) eqn:Ea; auto.
  - apply set_has_in in Eb. rewrite H1 in Ea by exact Eb. discriminate.
  - apply set_has_in in Ea. rewrite H2 in Eb by exact Ea. discriminate.
Qed.

Lemma network_poll_keys (now : string) (current last : PortMap) :
  NoDup (map fst current) ->
  let '(m, evs) := runNetworkCheck now (Some current) last in
  (forall k, JsMap.has k m = JsMap.has k current) /\
  (last = [] \/ evs <> [] -> m = current).
Proof.
  intros Hnd. unfold runNetworkCheck.
  destruct (Nat.eqb (length last) 0) eqn:L.
  - apply Nat.eqb_eq, length_zero_iff_nil in L. subst last.
    rewrite JsMapFacts.set_all_nil by exact Hnd. split; auto.
  - destruct (Nat.eqb (length (map snd _)) 0 && Nat.eqb (length (map snd _)) 0) eqn:C.
    + apply andb_true_iff in C as [C1 C2].
      apply Nat.eqb_eq in C1, C2. rewrite length_map in C1, C2.
      split.
      * apply same_keys; intros kv Hin.
        -- apply negb_false_iff. exact (filter_length_zero _ _ _ C1 Hin).
        -- apply negb_false_iff. exact (filter_length_zero _ _ _ C2 Hin).
      * intros [->|H]; [discriminate|congruence].
    + rewrite JsMapFacts.set_all_nil by exact Hnd. split; auto.
Qed.

Lemma account_poll_members (now : string) (us ads : list string) (last : Accounts) :
  let '(a, _) := runAccountCheck now (Some us) (Some ads) last in
  (forall x, set_has x (users a) = set_has x us) /\
  (forall x, set_has x (admins a) = set_has x ads).
Proof.
  unfold runAccountCheck.
  destruct (Nat.eqb (length (users last)) 0 && Nat.eqb (length (admins last)) 0);
    [simpl; auto|].
  match goal with |- context [if ?c then _ else _] => destruct c eqn:C end;
    [|simpl; auto].
  apply andb_true_iff in C as [C C4]. apply andb_true_iff in C as [C C3].
  apply andb_true_iff in C as [C1 C2].
  apply Nat.eqb_eq in C1, C2, C3, C4.
  split; apply same_members; intros x Hin; apply negb_false_iff.
  - exact (filter_length_zero _ _ _ C1 Hin).
  - exact (filter_length_zero _ _ _ C2 Hin).
  - exact (filter_length_zero _ _ _ C3 Hin).
  - exact (filter_length_zero _ _ _ C4 Hin).
Qed.

(** *** C3: the baseline-establishing poll *)

(** C3 (as amended): on a successful poll with an empty baseline, the
    ports agent and the accounts agent each emit exactly one [*_baseline]
    event, severity [info], carrying the whole snapshot, set the baseline to
    the snapshot and emit nothing else.  The file agent has no whole-baseline
    step: each file of the scan gets its own event, [file_integrity_baseline]
    (severity [info], path and digest) when readable and
    [file_integrity_error] otherwise, every readable file's digest is
    recorded, and no change event is emitted (paths distinct in the scan). *)
Theorem baseline_poll_events :
  (forall (now : string) (current : PortMap),
     NoDup (map fst current) ->
     runNetworkCheck now (Some current) [] =
     (current,
      [mkEvent "network_baseline" "net-agent" "info"
         "Initial listening ports baseline recorded" now
         (JSObj [("listening", JSArr (map (fun kv => port_to_js (snd kv)) current))])])) /\
  (forall (now : string) (us ads : list string),
     runAccountCheck now (Some us) (Some ads) (mkAccounts [] []) =
     (mkAccounts us ads,
      [mkEvent "account_baseline" "identity-agent" "info"
         "Initial local accounts baseline recorded" now
         (JSObj [("users", JSArr (map JSStr us)); ("admins", JSArr (map JSStr ads))])])) /\
  (forall (now : string) (scan : list (list (string * option string))),
     NoDup (map fst (concat scan)) ->
     runFileIntegrityCheck now scan [] =
     (readable (concat scan), map (first_poll_event now) (concat scan))).
Proof.
  split; [|split].
  - intros now current Hnd. unfold runNetworkCheck. simpl.
    rewrite JsMapFacts.set_all_nil by exact Hnd. reflexivity.
  - intros now us ads. reflexivity.
  - intros now scan Hnd. rewrite runFile_fresh; [reflexivity|exact Hnd|].
    intros k _. simpl. tauto.
Qed.

(** C3 fails for the file agent: a first poll over two readable files
    emits two baseline events, not one. *)
Lemma baseline_poll_file_two_events :
  ~ (exists e, snd (runFileIntegrityCheck "t" [[("a", Some "h1"); ("b", Some "h2")]] []) = [e]).
Proof. intros [e E]. vm_compute in E. discriminate E. Qed.

(** *** C4: the baseline after a successful poll *)

(** C4 (as amended): after every successful poll of the accounts agent its
    user and administrator sets have exactly the members just observed; after
    every successful poll of the ports agent its baseline has exactly the keys
    of the snapshot, and equals the snapshot after a baseline-establishing
    poll or a poll that emitted a change event; the file agent maps every
    readable file of the scan to its new digest and keeps the earlier entry
    of every other path (unreadable files, and files no longer found). *)
Theorem baseline_after_poll :
  (forall (now : string) (current last : PortMap),
     NoDup (map fst current) ->
     let '(m, evs) := runNetworkCheck now (Some current) last in
     (forall k, JsMap.has k m = JsMap.has k current) /\
     (last = [] \/ evs <> [] -> m = current)) /\
  (forall (now : string) (us ads : list string) (last : Accounts),
     let '(a, _) := runAccountCheck now (Some us) (Some ads) last in
     (forall x, set_has x (users a) = set_has x us) /\
     (forall x, set_has x (admins a) = set_has x ads)) /\
  (forall (now : string) (scan : list (list (string * option string))) (last : HashMap)
          (p : string),
     NoDup (map fst (concat scan)) ->
     JsMap.get p (fst (runFileIntegrityCheck now scan last)) =
     match lookup_file p (concat scan) with
     | Some (Some h) => Some h
     | _ => JsMap.get p last
     end).
Proof.
  split; [|split].
  - intros now current last Hnd. apply network_poll_keys; exact Hnd.
  - intros now us ads last. apply account_poll_members.
  - intros now scan last p Hnd. rewrite runFile_fst. apply file_updates_get; exact Hnd.
Qed.

(** C4 fails for the file agent: a file no longer found by the scan keeps
    its baseline entry. *)
Lemma baseline_keeps_missing_file :
  JsMap.has "a" (fst (runFileIntegrityCheck "t" [[("b", Some "h2")]] [("a", "h1")])) = true
  /\ ~ In "a" (map fst (concat [[("b", Some "h2")]])).
Proof. split; [vm_compute; reflexivity | simpl; intros [H|[]]; discriminate H]. Qed.

(** *** C5: collection failures *)

(** C5 (as amended): when the ports or accounts snapshot cannot be taken
    (the host command fails), the agent emits exactly one [*_check_error]
    event, severity [high], empty details, and keeps its baseline.  The file
    agent reports each unreadable file with its own [file_integrity_error]
    event (severity [high]) and keeps that file's baseline entry; the other
    files of the same poll are processed as usual. *)
Theorem collection_failure :
  (forall (now : string) (last : PortMap),
     runNetworkCheck now None last =
     (last, [mkEvent "network_check_error" "net-agent" "high"
               "Failed to read current listening ports" now (JSObj [])])) /\
  (forall (now : string) (us ads : option (list string)) (last : Accounts),
     us = None \/ ads = None ->
     runAccountCheck now us ads last =
     (last, [mkEvent "account_check_error" "identity-agent" "high"
               "Failed to read local users or administrators" now (JSObj [])])) /\
  (forall (now : string) (scan : list (list (string * option string))) (last : HashMap)
          (p : string),
     NoDup (map fst (concat scan)) -> In (p, None) (concat scan) ->
     JsMap.get p (fst (runFileIntegrityCheck now scan last)) = JsMap.get p last /\
     In (file_error_event now p) (snd (runFileIntegrityCheck now scan last))).
Proof.
  split; [|split].
  - reflexivity.
  - intros now us ads last [->| ->]; [reflexivity|]. destruct us; reflexivity.
  - intros now scan last p Hnd Hin. split.
    + rewrite runFile_fst, file_updates_get by exact Hnd.
      rewrite (lookup_file_in p None _ Hnd Hin). reflexivity.
    + apply runFile_error_in; exact Hin.
Qed.

(** C5 fails for the file agent: a poll with an unreadable file still
    changes the baseline through the other files. *)
Lemma file_error_poll_changes_baseline :
  In (file_error_event "t" "a")
     (snd (runFileIntegrityCheck "t" [[("a", None); ("b", Some "h2")]] [("x", "h0")]))
  /\ fst (runFileIntegrityCheck "t" [[("a", None); ("b", Some "h2")]] [("x", "h0")])
     <> [("x", "h0")].
Proof. split; [vm_compute; left; reflexivity | vm_compute; discriminate]. Qed.

End AgentProofs.

(* ------------------------------------------------------------------ *)
(** ** Server proofs *)

Module ServerProofs.
Import Server.
Section ServerProofs.

Variable JSON_stringify : jsval -> string.
Variable sha256 : string -> string.

Local Abbreviation minePendingEventsIfAny := (Server.minePendingEventsIfAny JSON_stringify sha256).
Local Abbreviation post_mine := (Server.post_mine JSON_stringify sha256).
Local Abbreviation initialState := (Server.initialState JSON_stringify sha256).
Local Abbreviation genesis := (Ledger.genesis JSON_stringify sha256 genesis_data).

(** *** C6: sealing an empty queue *)

(** C6: with an empty pending queue, [minePendingEventsIfAny()] returns
    without touching anything and [POST /mine] answers 400
    ["No pending events to mine"]: the chain is unchanged and no block is
    mined, whatever the mining budget. *)
Theorem empty_queue_seal (fuel : nat) (now : string) (st : State)
    (Hempty : pendingEvents st = []) :
  minePendingEventsIfAny fuel now st = Some st /\
  post_mine fuel now st = Some (mkResponse 400 (BodyError "No pending events to mine"), st).
Proof.
  unfold Server.minePendingEventsIfAny, Server.post_mine. rewrite Hempty. split; reflexivity.
Qed.

(** *** C7: the login_failed scenario *)

(** The body of [POST /events] with [{"type":"login_failed","source":"auth-service"}]. *)
Definition login_failed_body : jsval :=
  JSObj [("type", JSStr "login_failed"); ("source", JSStr "auth-service")].

(** C7: from a fresh server (a chain of one block, the genesis block),
    [POST /events] with type [login_failed] and source [auth-service]
    followed by [POST /mine] gives a chain of two blocks whose block 1 has
    index 1, previousHash the genesis hash and a payload holding exactly one
    event, of type [login_failed]; [GET /pending] then reports count 0. *)
Theorem login_failed_scenario (fuel : nat) (t1 t2 : string) (r : Response) (st : State) :
  post_mine fuel t2 (snd (post_events t1 login_failed_body initialState)) = Some (r, st) ->
  length (chain initialState) = 1 /\
  status r = 201 /\
  length (chain st) = 2 /\
  (exists b, nth_error (chain st) 1 = Some b /\ Ledger.index b = 1 /\
     Ledger.previousHash b = Ledger.hash genesis /\
     exists e, Ledger.data b = JSArr [event_to_js e] /\ type e = "login_failed") /\
  get_pending st = mkResponse 200 (BodyPending 0 []).
Proof.
  unfold Server.post_mine. simpl.
  unfold Ledger.addBlock.
  destruct (Ledger.mineBlock _ _ _ _ _ _) as [b|] eqn:E; [|discriminate].
  intros F; injection F as <- <-.
  apply LedgerProofs.mineBlock_fields in E. destruct E as (Hi & _ & Hd & Hp).
  split; [reflexivity|]. split; [reflexivity|]. split; [reflexivity|].
  split; [|reflexivity].
  exists b. split; [reflexivity|]. split; [exact Hi|]. split; [exact Hp|].
  eexists. split; [exact Hd|reflexivity].
Qed.

(** *** C8: intake validation *)

(** A non-empty string value. *)
Definition nonempty_string (v : jsval) : Prop :=
  match v with JSStr s => s <> "" | _ => False end.

(** [details] absent, [null], or an object that is not an array. *)
Definition details_ok (v : jsval) : Prop :=
  match v with JSUndefined | JSNull | JSObj _ => True | _ => False end.

Lemma trim_nonempty (t : string) : String.eqb (trim t) "" = false -> t <> "".
Proof. intros H E. subst t. discriminate H. Qed.

Lemma validateEvent_ok (reqBody : jsval) :
  validateEvent reqBody = None ->
  nonempty_string (get reqBody "type") /\ nonempty_string (get reqBody "source") /\
  details_ok (get reqBody "details").
Proof.
  unfold validateEvent.
  destruct (_ || _) eqn:E1; [discriminate|].
  destruct (negb (String.eqb (typeof (get reqBody "type")) "string") || _) eqn:E2;
    [discriminate|].
  destruct (negb (String.eqb (typeof (get reqBody "source")) "string") || _) eqn:E3;
    [discriminate|].
  destruct (not_nullish (get reqBody "severity") && _); [discriminate|].
  destruct (not_nullish (get reqBody "message") && _); [discriminate|].
  destruct (not_nullish (get reqBody "details") && _) eqn:E6; [discriminate|].
  intros _. clear E1.
  split; [|split].
  - destruct (get reqBody "type"); simpl in E2; try discriminate.
    apply trim_nonempty; exact E2.
  - destruct (get reqBody "source"); simpl in E3; try discriminate.
    apply trim_nonempty; exact E3.
  - destruct (get reqBody "details"); simpl in E6; try discriminate; exact I.
Qed.

(** C8: [POST /events] accepts (202) an event only if [type] and [source]
    are non-empty strings and [details], when present, is an object that is
    not an array; the queued event is appended to [pendingEvents], with
    severity ["info"] and message [""] when those are absent.  A body that
    breaks one of these rules is refused with 400 and an error message, and
    the state, the queue included, is unchanged. *)
Theorem intake_validation (now : string) (reqBody : jsval) (st : State) :
  let '(r, st') := post_events now reqBody st in
  (status r = 202 ->
     nonempty_string (get reqBody "type") /\ nonempty_string (get reqBody "source") /\
     details_ok (get reqBody "details") /\
     exists e, body r = BodyQueued e /\
       pendingEvents st' = (pendingEvents st ++ [e])%list /\
       (not_nullish (get reqBody "severity") = false -> severity e = "info") /\
       (not_nullish (get reqBody "message") = false -> message e = "")) /\
  (~ (nonempty_string (get reqBody "type") /\ nonempty_string (get reqBody "source") /\
      details_ok (get reqBody "details")) ->
     status r = 400 /\ (exists err, body r = BodyError err) /\ st' = st).
Proof.
  unfold post_events.
  destruct (validateEvent reqBody) as [err|] eqn:V.
  - simpl. split; [discriminate|]. intros _. split; [reflexivity|]. split; [eauto|reflexivity].
  - simpl. pose proof (validateEvent_ok reqBody V) as Hok.
    split; [|intros Hn; contradiction].
    intros _. destruct Hok as (Ht & Hs & Hdt).
    split; [exact Ht|]. split; [exact Hs|]. split; [exact Hdt|].
    eexists. split; [reflexivity|]. split; [reflexivity|].
    unfold nullish_or. simpl.
    split; intros H; rewrite H; reflexivity.
Qed.

End ServerProofs.
End ServerProofs.

(* ------------------------------------------------------------------ *)
(** ** Further properties of the ledger *)

Module LedgerExtra.
Import Ledger.
Section LedgerExtra.

Context {D : Type}.
Variable JSON_stringify : D -> string.
Variable sha256 : string -> string.
Variable genesis_data : D.

Local Abbreviation Block := (@Ledger.Block D).
Local Abbreviation isValid_from := (@Ledger.isValid_from D JSON_stringify sha256).
Local Abbreviation isValid := (@Ledger.isValid D JSON_stringify sha256).
Local Abbreviation mineBlock := (@Ledger.mineBlock D JSON_stringify sha256).
Local Abbreviation genesis := (@Ledger.genesis D JSON_stringify sha256 genesis_data).
Local Abbreviation addBlock := (@Ledger.addBlock D JSON_stringify sha256 genesis_data).

Lemma addBlock_shape (fuel : nat) (ts : string) (d : D) (c : list Block) (b : Block)
    (c' : list Block) :
  addBlock fuel ts d c = Some (b, c') ->
  c' = (c ++ [b])%list /\ mineBlock fuel (last c genesis) ts d = Some b.
Proof.
  unfold Ledger.addBlock, Ledger.latestBlock.
  destruct (mineBlock _ _ _ _) as [nb|] eqn:E; [|discriminate].
  intros F; injection F as <- <-. auto.
Qed.

Lemma addBlock_isValid (fuel : nat) (ts : string) (d : D) (c : list Block) (b : Block)
    (c' : list Block) :
  addBlock fuel ts d c = Some (b, c') -> isValid c' = isValid c.
Proof.
  intros E. apply addBlock_shape in E as [-> E].
  apply LedgerProofs.mineBlock_link in E as [Hp Hh].
  destruct c as [|g rest].
  - reflexivity.
  - simpl. rewrite (LedgerProofs.isValid_from_app JSON_stringify sha256).
    rewrite LedgerProofs.last_cons in Hp.
    rewrite (LedgerProofs.isValid_from_single JSON_stringify sha256 _ _ Hp Hh).
    apply andb_true_r.
Qed.

(** Mining on top of a chain neither repairs nor breaks it: after
    [addBlock(data)] returns, [isValid()] gives what it gave before.  In
    particular a chain that was tampered with stays invalid however many
    blocks are appended, and an intact chain stays valid. *)
Theorem addBlock_preserves_validity (fuel : nat) (ts : string) (d : D) (c : list Block)
    (b : Block) (c' : list Block)
    (E : addBlock fuel ts d c = Some (b, c')) :
  isValid c' = isValid c /\ c' = (c ++ [b])%list.
Proof.
  split; [exact (addBlock_isValid fuel ts d c b c' E)|].
  exact (proj1 (addBlock_shape fuel ts d c b c' E)).
Qed.

End LedgerExtra.
End LedgerExtra.

(* ------------------------------------------------------------------ *)
(** ** Properties of the whole service *)

Module ServerOpsProofs.
Import Ledger NetworkAgent AccountAgent FileAgent Server ServerOps.
Section ServerOpsProofs.

Variable JSON_stringify : jsval -> string.
Variable sha256 : string -> string.

Local Abbreviation Block := (@Ledger.Block jsval).
Local Abbreviation isValid := (@Ledger.isValid jsval JSON_stringify sha256).
Local Abbreviation genesis := (Ledger.genesis JSON_stringify sha256 genesis_data).
Local Abbreviation addBlock := (Ledger.addBlock JSON_stringify sha256 genesis_data).
Local Abbreviation step := (ServerOps.step JSON_stringify sha256).
Local Abbreviation run := (ServerOps.run JSON_stringify sha256).
Local Abbreviation initialState := (Server.initialState JSON_stringify sha256).

(** The operations that mine a block: [POST /mine] and the timer's
    [minePendingEventsIfAny]. *)
Definition is_mine (op : Op) : bool :=
  match op with PostMine _ | AutoMine _ => true | _ => false end.

Lemma mine_cases (fuel : nat) (now : string) (st st' : State) :
  minePendingEventsIfAny JSON_stringify sha256 fuel now st = Some st' ->
  (st' = st /\ pendingEvents st = []) \/
  (exists b, pendingEvents st <> [] /\
     addBlock fuel now (payload_of (pendingEvents st)) (chain st) = Some (b, chain st') /\
     pendingEvents st' = [] /\ lastFileHashes st' = lastFileHashes st /\
     lastListeningPorts st' = lastListeningPorts st /\ lastAccounts st' = lastAccounts st).
Proof.
  unfold minePendingEventsIfAny.
  destruct (Nat.eqb (length (pendingEvents st)) 0) eqn:L.
  - intros E; injection E as <-. left. split; [reflexivity|].
    apply Nat.eqb_eq, length_zero_iff_nil in L. exact L.
  - destruct (Ledger.addBlock _ _ _ _ _ _ _) as [[b c']|] eqn:E; [|discriminate].
    intros F; injection F as <-. right. exists b. simpl.
    split; [intros H; rewrite H in L; discriminate|]. auto.
Qed.

Lemma post_mine_auto (fuel : nat) (now : string) (st : State) :
  match post_mine JSON_stringify sha256 fuel now st with
  | Some (_, st') => Some st'
  | None => None
  end = minePendingEventsIfAny JSON_stringify sha256 fuel now st.
Proof.
  unfold post_mine, minePendingEventsIfAny.
  destruct (Nat.eqb _ 0); [reflexivity|].
  destruct (Ledger.addBlock _ _ _ _ _ _ _) as [[b c']|]; reflexivity.
Qed.

Lemma step_cases (fuel : nat) (op : Op) (st st' : State) :
  step fuel op st = Some st' ->
  (is_mine op = false /\ chain st' = chain st /\
     exists evs, pendingEvents st' = (pendingEvents st ++ evs)%list) \/
  (is_mine op = true /\ minePendingEventsIfAny JSON_stringify sha256 fuel
                          match op with PostMine n | AutoMine n => n | _ => "" end st = Some st').
Proof.
  destruct op as [now body|now|now|now current|now us ads|now scan]; simpl.
  - unfold post_events. intros E; injection E as <-. left.
    destruct (validateEvent body); simpl; split; auto; split; auto.
    + exists []. now rewrite app_nil_r.
    + eexists. reflexivity.
  - rewrite post_mine_auto. intros E. right. auto.
  - intros E. right. auto.
  - intros E; injection E as <-. left. unfold network_tick.
    destruct (runNetworkCheck _ _ _). simpl. eauto.
  - intros E; injection E as <-. left. unfold account_tick.
    destruct (runAccountCheck _ _ _ _). simpl. eauto.
  - intros E; injection E as <-. left. unfold file_tick.
    destruct (runFileIntegrityCheck _ _ _). simpl. eauto.
Qed.

(** The ledger invariant the service keeps: the chain starts with the
    genesis block, block [i] has index [i], and [isValid()] holds. *)
Definition chain_inv (c : list Block) : Prop :=
  isValid c = true /\ nth_error c 0 = Some genesis /\
  (forall i b, nth_error c i = Some b -> index b = i).

Lemma chain_inv_addBlock (fuel : nat) (ts : string) (d : jsval) (c : list Block)
    (b : Block) (c' : list Block) :
  chain_inv c -> addBlock fuel ts d c = Some (b, c') -> chain_inv c'.
Proof.
  intros (Hv & H0 & Hi) E.
  pose proof (LedgerExtra.addBlock_isValid JSON_stringify sha256 genesis_data _ _ _ _ _ _ E) as Hv'.
  apply LedgerExtra.addBlock_shape in E as [-> E].
  apply LedgerProofs.mineBlock_fields in E as (Hidx & _).
  destruct c as [|g rest]; [discriminate|].
  split; [rewrite Hv'; exact Hv|]. split; [exact H0|].
  intros i b' Hb.
  destruct (Nat.lt_ge_cases i (length (g :: rest))) as [Hlt|Hge].
  - rewrite nth_error_app1 in Hb by exact Hlt. exact (Hi _ _ Hb).
  - rewrite nth_error_app2 in Hb by exact Hge.
    destruct (i - length (g :: rest)) as [|k] eqn:K; [|destruct k; discriminate].
    injection Hb as <-. rewrite Hidx.
    destruct (exists_last (l := g :: rest) ltac:(discriminate)) as (l0 & x & Ex).
    rewrite Ex, last_last.
    assert (Hx : nth_error (g :: rest) (length l0) = Some x)
      by (rewrite Ex, nth_error_app2, Nat.sub_diag by lia; reflexivity).
    rewrite (Hi _ _ Hx).
    assert (length (g :: rest) = S (length l0)) by (rewrite Ex, length_app; simpl; lia).
    lia.
Qed.

Lemma chain_inv_step (fuel : nat) (op : Op) (st st' : State) :
  chain_inv (chain st) -> step fuel op st = Some st' -> chain_inv (chain st').
Proof.
  intros Hinv E. apply step_cases in E as [(_ & -> & _)|(_ & E)]; [exact Hinv|].
  apply mine_cases in E as [(-> & _)|(b & _ & E & _)]; [exact Hinv|].
  exact (chain_inv_addBlock _ _ _ _ _ _ Hinv E).
Qed.

Lemma chain_inv_run (fuel : nat) (ops : list Op) (st st' : State) :
  chain_inv (chain st) -> run fuel ops st = Some st' -> chain_inv (chain st').
Proof.
  revert st. induction ops as [|op ops IH]; intros st Hinv; simpl.
  - intros E; injection E as <-. exact Hinv.
  - destruct (step fuel op st) as [st1|] eqn:E; [|discriminate].
    apply IH. exact (chain_inv_step _ _ _ _ Hinv E).
Qed.

Lemma chain_inv_initial : chain_inv (chain initialState).
Proof.
  split; [reflexivity|]. split; [reflexivity|].
  intros [|i] b Hb; [injection Hb as <-; reflexivity | destruct i; discriminate].
Qed.

(** Whatever requests and timer callbacks the process serves from its
    start, [GET /verify] and [GET /health] report [valid: true]; the chain
    starts with the genesis block and the block at position [i] has index [i]. *)
Theorem service_chain_invariant (fuel : nat) (ops : list Op) (st : State)
    (E : run fuel ops initialState = Some st) :
  get_verify JSON_stringify sha256 st = (true, length (chain st)) /\
  get_health JSON_stringify sha256 st = ("ok", true, length (chain st)) /\
  nth_error (chain st) 0 = Some genesis /\
  (forall i b, nth_error (chain st) i = Some b -> index b = i).
Proof.
  destruct (chain_inv_run fuel ops _ _ chain_inv_initial E) as (Hv & H0 & Hi).
  unfold get_verify, get_health. rewrite Hv. auto.
Qed.

(** No operation alters or removes a block of the chain: the requests
    that do not mine ([POST /events]) and the agents' polls leave the chain
    as it was, and mining appends at most one block. *)
Theorem operations_append_only (fuel : nat) (op : Op) (st st' : State)
    (E : step fuel op st = Some st') :
  (is_mine op = false -> chain st' = chain st) /\
  (chain st' = chain st \/ exists b, chain st' = (chain st ++ [b])%list).
Proof.
  apply step_cases in E as [(Hm & Hc & _)|(Hm & E)].
  - split; auto.
  - split; [rewrite Hm; discriminate|].
    apply mine_cases in E as [(-> & _)|(b & _ & E & _)]; [auto|].
    right. exists b. exact (proj1 (LedgerExtra.addBlock_shape _ _ _ _ _ _ _ _ _ E)).
Qed.

(** The events a block holds: its payload array. *)
Definition block_events (b : Block) : list jsval :=
  match data b with JSArr xs => xs | _ => [] end.

(** Every event the service has queued, in order: those mined into the
    blocks after the genesis block, then those still pending. *)
Definition ledger_log (st : State) : list jsval :=
  (concat (map block_events (tl (chain st))) ++ map event_to_js (pendingEvents st))%list.

(** No event is lost, duplicated or reordered: every operation only
    appends events to the sequence of mined-then-pending events, and
    mining ([POST /mine], [minePendingEventsIfAny]) leaves that sequence
    exactly as it was, moving the whole queue, in order, into the new block. *)
Theorem events_conserved (fuel : nat) (op : Op) (st st' : State)
    (Hne : chain st <> []) (E : step fuel op st = Some st') :
  exists evs, ledger_log st' = (ledger_log st ++ map event_to_js evs)%list /\
              (is_mine op = true -> evs = []).
Proof.
  unfold ledger_log.
  apply step_cases in E as [(Hm & -> & evs & ->)|(Hm & E)].
  - exists evs. split; [rewrite map_app, app_assoc; reflexivity|].
    rewrite Hm; discriminate.
  - exists []. split; [|reflexivity]. rewrite app_nil_r.
    apply mine_cases in E as [(-> & _)|(b & _ & E & Hp & _)]; [reflexivity|].
    apply LedgerExtra.addBlock_shape in E as [Hc E].
    apply LedgerProofs.mineBlock_fields in E as (_ & _ & Hd & _).
    rewrite Hc, Hp. destruct (chain st) as [|g rest]; [contradiction|].
    simpl. rewrite map_app, concat_app. simpl.
    unfold block_events at 2. rewrite Hd. simpl. now rewrite !app_nil_r.
Qed.

(** [POST /mine] and the timer's [minePendingEventsIfAny()] have the same
    effect on the state: an empty queue leaves everything as it was, and
    otherwise both mine the whole queue into one block and empty it. *)
Theorem mine_route_matches_timer (fuel : nat) (now : string) (st : State) :
  match post_mine JSON_stringify sha256 fuel now st with
  | Some (_, st') => Some st'
  | None => None
  end = minePendingEventsIfAny JSON_stringify sha256 fuel now st.
Proof. apply post_mine_auto. Qed.

End ServerOpsProofs.
End ServerOpsProofs.

(* ------------------------------------------------------------------ *)
(** ** Further properties of the agents *)

Module AgentExtra.
Import NetworkAgent AccountAgent FileAgent AgentProofs.

Lemma filter_all_false {A} (f : A -> bool) (l : list A) :
  (forall x, In x l -> f x = false) -> filter f l = [].
Proof.
  induction l as [|x l IH]; simpl; [reflexivity|].
  intros H. rewrite H by auto. apply IH. auto.
Qed.

Lemma flat_map_in_ext {A B} (f g : A -> list B) (l : list A) :
  (forall x, In x l -> f x = g x) -> flat_map f l = flat_map g l.
Proof.
  induction l as [|x l IH]; simpl; [reflexivity|].
  intros H. rewrite H by auto. f_equal. apply IH. auto.
Qed.

(** *** Ports *)

(** The ports agent polled twice with the same snapshot: when some port is
    listening the second poll emits nothing and keeps the baseline; when no
    port is listening the baseline stays empty, so every poll emits a new
    [network_baseline] event. *)
Theorem network_repeat_poll (now1 now2 : string) (current last : PortMap)
    (Hnd : NoDup (map fst current)) :
  let '(m, _) := runNetworkCheck now1 (Some current) last in
  (current <> [] -> runNetworkCheck now2 (Some current) m = (m, [])) /\
  (current = [] ->
     m = [] /\
     exists e, runNetworkCheck now2 (Some current) m = (m, [e]) /\
               type e = "network_baseline").
Proof.
  pose proof (network_poll_keys now1 current last Hnd) as Hk.
  destruct (runNetworkCheck now1 (Some current) last) as [m evs] eqn:E1.
  destruct Hk as [Hk _]. split.
  - intros Hc. unfold runNetworkCheck.
    destruct current as [|kv c']; [contradiction|].
    destruct m as [|kv' m'].
    { specialize (Hk (fst kv)).
      rewrite (proj2 (has_in (fst kv) (kv :: c'))) in Hk by (simpl; left; reflexivity).
      discriminate Hk. }
    remember (kv' :: m') as m eqn:Em. remember (kv :: c') as c eqn:Ec.
    assert (Hl : Nat.eqb (length m) 0 = false) by (subst m; reflexivity).
    rewrite Hl.
    rewrite (filter_all_false (fun kv0 => negb (JsMap.has (fst kv0) m)) c).
    2:{ intros x Hx. rewrite Hk. apply negb_false_iff, has_in, in_map. exact Hx. }
    rewrite (filter_all_false (fun kv0 => negb (JsMap.has (fst kv0) c)) m).
    2:{ intros x Hx. rewrite <- Hk. apply negb_false_iff, has_in, in_map. exact Hx. }
    reflexivity.
  - intros ->. clear Hk.
    assert (Hm : m = []).
    { destruct last as [|kv last']; simpl in E1; injection E1 as <- _; reflexivity. }
    subst m. split; [reflexivity|]. eexists. split; reflexivity.
Qed.

(** *** Accounts *)

Lemma members_nil (l : list string) : (forall x, set_has x l = set_has x []) -> l = [].
Proof.
  destruct l as [|y l]; [reflexivity|]. intros H. specialize (H y).
  simpl in H. rewrite String.eqb_refl in H. discriminate H.
Qed.

(** The accounts agent polled twice with the same users and
    administrators: when either set is non-empty the second poll emits
    nothing and keeps the baseline; when both are empty the baseline stays
    empty and every poll emits a new [account_baseline] event. *)
Theorem account_repeat_poll (now1 now2 : string) (us ads : list string) (last : Accounts) :
  let '(a, _) := runAccountCheck now1 (Some us) (Some ads) last in
  ((us <> [] \/ ads <> []) -> runAccountCheck now2 (Some us) (Some ads) a = (a, [])) /\
  (us = [] -> ads = [] ->
     a = mkAccounts [] [] /\
     exists e, runAccountCheck now2 (Some us) (Some ads) a = (a, [e]) /\
               type e = "account_baseline").
Proof.
  pose proof (account_poll_members now1 us ads last) as Hk.
  destruct (runAccountCheck now1 (Some us) (Some ads) last) as [a evs] eqn:E1.
  destruct Hk as [Hu Ha]. split.
  - intros Hne. unfold runAccountCheck.
    assert (Hl : Nat.eqb (length (users a)) 0 && Nat.eqb (length (admins a)) 0 = false).
    { destruct Hne as [Hne|Hne].
      - destruct us as [|u us']; [contradiction|].
        destruct (users a) as [|y ys] eqn:Ey; [|reflexivity].
        specialize (Hu u). try rewrite Ey in Hu. simpl in Hu.
        rewrite String.eqb_refl in Hu. discriminate Hu.
      - destruct ads as [|u ads']; [contradiction|].
        destruct (admins a) as [|y ys] eqn:Ey; [|apply andb_false_r].
        specialize (Ha u). try rewrite Ey in Ha. simpl in Ha.
        rewrite String.eqb_refl in Ha. discriminate Ha. }
    rewrite Hl.
    rewrite (filter_all_false (fun u => negb (set_has u (users a))) us).
    2:{ intros x Hx. rewrite Hu. apply negb_false_iff, set_has_in. exact Hx. }
    rewrite (filter_all_false (fun u => negb (set_has u us)) (users a)).
    2:{ intros x Hx. rewrite <- Hu. apply negb_false_iff, set_has_in. exact Hx. }
    rewrite (filter_all_false (fun u => negb (set_has u (admins a))) ads).
    2:{ intros x Hx. rewrite Ha. apply negb_false_iff, set_has_in. exact Hx. }
    rewrite (filter_all_false (fun u => negb (set_has u ads)) (admins a)).
    2:{ intros x Hx. rewrite <- Ha. apply negb_false_iff, set_has_in. exact Hx. }
    reflexivity.
  - intros -> ->.
    assert (Ea : a = mkAccounts [] []).
    { destruct a as [ua aa]. simpl in Hu, Ha.
      rewrite (members_nil ua Hu), (members_nil aa Ha). reflexivity. }
    subst a. split; [reflexivity|]. eexists. split; reflexivity.
Qed.

(** *** Files *)

(** The event (if any) the loop of [runFileIntegrityCheck] emits for one
    file, given the baseline entry of its path. *)
Definition file_event (now : string) (prev : option string) (f : string * option string)
    : list Event :=
  let '(p, o) := f in
  match o with
  | None => [file_error_event now p]
  | Some h =>
      match prev with
      | Some old =>
          if String.eqb old h then []
          else [mkEvent "file_integrity_change" "file-agent" "high"
                  ("File content changed: " ++ p) now
                  (JSObj [("path", JSStr p); ("oldHash", JSStr old); ("newHash", JSStr h)])]
      | None =>
          [mkEvent "file_integrity_baseline" "file-agent" "info"
             ("Baseline hash recorded for " ++ p) now
             (JSObj [("path", JSStr p); ("hash", JSStr h)])]
      end
  end.

Lemma process_files_app (now : string) (a b : list (string * option string))
    (last : HashMap) :
  process_files now (a ++ b) last =
  let '(m, evs) := process_files now a last in
  let '(m', evs') := process_files now b m in
  (m', (evs ++ evs')%list).
Proof.
  induction a as [|[p [h|]] a IH] in last |- *; simpl.
  - destruct (process_files now b last); reflexivity.
  - destruct (JsMap.get p last) as [prev|].
    + destruct (String.eqb prev h); [apply IH|].
      rewrite IH. destruct (process_files now a (JsMap.set p h last)) as [m evs].
      destruct (process_files now b m). reflexivity.
    + rewrite IH. destruct (process_files now a (JsMap.set p h last)) as [m evs].
      destruct (process_files now b m). reflexivity.
  - rewrite IH. destruct (process_files now a last) as [m evs].
    destruct (process_files now b m). reflexivity.
Qed.

Lemma runFile_concat (now : string) (scan : list (list (string * option string)))
    (last : HashMap) :
  runFileIntegrityCheck now scan last = process_files now (concat scan) last.
Proof.
  induction scan as [|files scan IH] in last |- *; simpl; [reflexivity|].
  rewrite process_files_app.
  destruct (process_files now files last) as [m evs]. rewrite IH. reflexivity.
Qed.

Lemma process_files_events (now : string) (files : list (string * option string))
    (last : HashMap) :
  NoDup (map fst files) ->
  snd (process_files now files last) =
  flat_map (fun f => file_event now (JsMap.get (fst f) last) f) files.
Proof.
  induction files as [|[p o] files IH] in last |- *; intros Hnd; [reflexivity|].
  simpl in Hnd. inversion Hnd as [|? ? Hp Hnd']; subst.
  assert (Hother : forall v, flat_map (fun f => file_event now (JsMap.get (fst f) (JsMap.set p v last)) f) files
                      = flat_map (fun f => file_event now (JsMap.get (fst f) last) f) files).
  { intros v. apply flat_map_in_ext. intros [q o'] Hq. simpl.
    rewrite JsMapFacts.get_set_neq; [reflexivity|].
    intros ->. apply Hp. exact (in_map fst _ _ Hq). }
  simpl. destruct o as [h|].
  - destruct (JsMap.get p last) as [prev|].
    + destruct (String.eqb prev h); [apply IH; exact Hnd'|].
      specialize (IH (JsMap.set p h last) Hnd').
      destruct (process_files now files (JsMap.set p h last)) as [m evs].
      simpl in IH |- *. rewrite IH, Hother. reflexivity.
    + specialize (IH (JsMap.set p h last) Hnd').
      destruct (process_files now files (JsMap.set p h last)) as [m evs].
      simpl in IH |- *. rewrite IH, Hother. reflexivity.
  - specialize (IH last Hnd').
    destruct (process_files now files last) as [m evs].
    simpl in IH |- *. rewrite IH. reflexivity.
Qed.

(** The events of a file poll, in closed form: with the paths of the scan
    distinct, each file gets [file_integrity_error] when unreadable,
    [file_integrity_baseline] when its path has no baseline entry,
    [file_integrity_change] (old and new digest) when its digest differs
    from the baseline entry, and no event when it equals it; the events
    come in scan order, and each depends only on that file and its own
    baseline entry before the poll. *)
Theorem file_poll_events (now : string) (scan : list (list (string * option string)))
    (last : HashMap) (Hnd : NoDup (map fst (concat scan))) :
  snd (runFileIntegrityCheck now scan last) =
  flat_map (fun f => file_event now (JsMap.get (fst f) last) f) (concat scan).
Proof. rewrite runFile_concat. apply process_files_events. exact Hnd. Qed.

(** The error events of the unreadable files of a scan. *)
Definition unreadable_events (now : string) (files : list (string * option string))
    : list Event :=
  flat_map (fun f => match snd f with None => [file_error_event now (fst f)] | Some _ => [] end)
    files.

Lemma process_files_stable (now : string) (files : list (string * option string))
    (m : HashMap) :
  (forall p h, In (p, Some h) files -> JsMap.get p m = Some h) ->
  process_files now files m = (m, unreadable_events now files).
Proof.
  induction files as [|[p [h|]] files IH]; intros H; simpl; [reflexivity| |].
  - rewrite (H p h) by (left; reflexivity). rewrite String.eqb_refl.
    apply IH. intros q h' Hq. apply H. right. exact Hq.
  - rewrite IH by (intros q h' Hq; apply H; right; exact Hq). reflexivity.
Qed.

(** The file agent polled twice over the same files with the same
    contents (paths distinct): the second poll keeps the baseline and
    emits only the [file_integrity_error] events of the unreadable files;
    an unchanged readable file never gets a second event. *)
Theorem file_repeat_poll (now1 now2 : string) (scan : list (list (string * option string)))
    (last : HashMap) (Hnd : NoDup (map fst (concat scan))) :
  let '(m, _) := runFileIntegrityCheck now1 scan last in
  runFileIntegrityCheck now2 scan m = (m, unreadable_events now2 (concat scan)).
Proof.
  pose proof (runFile_fst now1 scan last) as Hf.
  destruct (runFileIntegrityCheck now1 scan last) as [m evs]. simpl in Hf. subst m.
  rewrite runFile_concat. apply process_files_stable.
  intros p h Hin. rewrite file_updates_get by exact Hnd.
  rewrite (lookup_file_in p (Some h) _ Hnd Hin). reflexivity.
Qed.

End AgentExtra.

(* ------------------------------------------------------------------ *)
(** ** Properties of the command-output parsers of [server.js] *)

Module ParserProofs.
Import NetworkAgent Netstat AccountAgent NetUser.

Lemma includes_char_false (l : list ascii) (c : ascii) :
  ~ In c l -> includes_char (string_of_list_ascii l) c = false.
Proof.
  intros H. unfold includes_char. rewrite list_ascii_of_string_of_list_ascii.
  apply Bool.not_true_iff_false. intros E. apply existsb_exists in E as (x & Hx & Ex).
  apply Ascii.eqb_eq in Ex. subst x. contradiction.
Qed.

Lemma split_char_aux_sep (sep : ascii) (cs cur x : list ascii) :
  ~ In sep cur -> In x (split_char_aux sep cs cur) -> ~ In sep x.
Proof.
  revert cur. induction cs as [|c cs IH]; intros cur Hcur; simpl.
  - intros [<-|[]]. rewrite <- in_rev. exact Hcur.
  - destruct (Ascii.eqb c sep) eqn:E.
    + intros [<-|Hx]; [rewrite <- in_rev; exact Hcur|]. exact (IH [] (fun h => h) Hx).
    + apply IH. intros [->|H]; [rewrite Ascii.eqb_refl in E; discriminate|contradiction].
Qed.

Lemma split_char_sep (sep : ascii) (s x : string) :
  In x (split_char sep s) -> includes_char x sep = false.
Proof.
  unfold split_char. intros H. apply in_map_iff in H as (l & <- & Hl).
  apply includes_char_false. exact (split_char_aux_sep sep _ [] l (fun h => h) Hl).
Qed.

Lemma parse_line_spec (line k : string) (v : PortInfo) :
  parse_line line = Some (k, v) ->
  k = (proto v ++ ":" ++ localAddress v ++ ":" ++ port v)%string /\
  localAddress v <> "" /\ port v <> "" /\
  includes_char (localAddress v) ":" = false /\ includes_char (port v) ":" = false /\
  (proto v = "TCP" -> nth_error (split_ws (trim line)) 3 = Some "LISTENING").
Proof.
  unfold parse_line.
  set (parts := split_ws (trim line)).
  destruct (negb _ && negb _); [discriminate|].
  destruct ((length parts <? 4)%nat); [discriminate|].
  set (proto := nth 0 parts "").
  set (fields := split_char ":" (nth 1 parts "")).
  assert (Htail : forall pid,
    match nth_error fields 0 with
    | Some a => match nth_error fields 1 with
                | Some p => if (a =? "") || (p =? "") then None
                            else Some ((proto ++ ":" ++ a ++ ":" ++ p)%string, mkPortInfo proto a p pid)
                | None => None end
    | None => None end = Some (k, v) ->
    k = (NetworkAgent.proto v ++ ":" ++ localAddress v ++ ":" ++ port v)%string /\
    localAddress v <> "" /\ port v <> "" /\
    includes_char (localAddress v) ":" = false /\ includes_char (port v) ":" = false /\
    NetworkAgent.proto v = proto).
  { intros pid.
    destruct (nth_error fields 0) as [a|] eqn:Ea; [|discriminate].
    destruct (nth_error fields 1) as [p|] eqn:Ep; [|discriminate].
    destruct (a =? "") eqn:Ha; [discriminate|]. destruct (p =? "") eqn:Hp; [discriminate|].
    intros E; injection E as <- <-. simpl.
    apply String.eqb_neq in Ha, Hp.
    repeat split; auto.
    - apply (split_char_sep ":" (nth 1 parts "")). exact (nth_error_In _ _ Ea).
    - apply (split_char_sep ":" (nth 1 parts "")). exact (nth_error_In _ _ Ep). }
  destruct (String.eqb proto "TCP") eqn:T.
  - destruct (nth_error parts 3) as [st|] eqn:S3; simpl; [|discriminate].
    destruct (st =? "LISTENING") eqn:L; simpl; [|discriminate].
    intros E. apply Htail in E as (H1 & H2 & H3 & H4 & H5 & _).
    repeat split; auto. intros _. apply String.eqb_eq in L. subst st. first [exact S3 | reflexivity].
  - simpl. intros E. apply Htail in E as (H1 & H2 & H3 & H4 & H5 & H6).
    repeat split; auto. intros Hv. rewrite H6 in Hv. rewrite Hv in T. discriminate T.
Qed.


Lemma set_nodup {V} (k : string) (v : V) (m : @JsMap.t V) :
  NoDup (map fst m) -> NoDup (map fst (JsMap.set k v m)).
Proof.
  induction m as [|[k0 v0] m IH]; simpl; intros Hnd.
  - constructor; [intros []|constructor].
  - inversion Hnd as [|? ? Hk0 Hnd']; subst.
    destruct (String.eqb k0 k) eqn:E; simpl; constructor; auto.
    intros Hin. apply Hk0.
    assert (Hkeys : forall x, In x (map fst (JsMap.set k v m)) -> x = k \/ In x (map fst m)).
    { clear. induction m as [|[k1 v1] m IH]; simpl; [intros x [<-|[]]; auto|].
      destruct (String.eqb k1 k); simpl; intros x [<-|H]; auto.
      destruct (IH x H); auto. }
    destruct (Hkeys k0 Hin) as [->|H]; [rewrite String.eqb_refl in E; discriminate|exact H].
Qed.

Lemma in_set {V} (k : string) (v : V) (m : @JsMap.t V) (kv : string * V) :
  In kv (JsMap.set k v m) -> kv = (k, v) \/ In kv m.
Proof.
  induction m as [|[k0 v0] m IH]; simpl.
  - intros [<-|[]]; auto.
  - destruct (String.eqb k0 k) eqn:E; simpl.
    + apply String.eqb_eq in E. subst k0. intros [<-|H]; auto.
    + intros [<-|H]; auto. destruct (IH H); auto.
Qed.

Lemma netstat_fold (all lines : list string) (acc : PortMap) :
  (forall l, In l lines -> In l all) ->
  NoDup (map fst acc) ->
  (forall kv, In kv acc -> exists line, In line all /\ parse_line line = Some kv) ->
  let m := fold_left (fun ports line =>
                        match parse_line line with
                        | Some (key, v) => JsMap.set key v ports
                        | None => ports
                        end) lines acc in
  NoDup (map fst m) /\ (forall kv, In kv m -> exists line, In line all /\ parse_line line = Some kv).
Proof.
  revert acc. induction lines as [|l lines IH]; intros acc Hsub Hnd Hacc; simpl; [auto|].
  apply IH; [intros x Hx; apply Hsub; right; exact Hx| |].
  - destruct (parse_line l) as [[key v]|]; [apply set_nodup|]; exact Hnd.
  - destruct (parse_line l) as [[key v]|] eqn:El; [|exact Hacc].
    intros kv Hkv. apply in_set in Hkv as [->|Hkv]; [|exact (Hacc kv Hkv)].
    exists l. split; [apply Hsub; left; reflexivity | exact El].
Qed.

(** Whatever [netstat] prints, [getCurrentListeningPorts] returns a map
    with distinct keys; each entry comes from one line of the output, its key
    is [proto:address:port] built from its own fields, the address and port
    are non-empty and contain no [':'], and a TCP entry comes from a line whose
    fourth column is [LISTENING]. *)
Theorem netstat_snapshot (out : string) :
  exists m, getCurrentListeningPorts (Some out) = Some m /\
    NoDup (map fst m) /\
    forall k v, In (k, v) m ->
      exists line, In line (split_lines out) /\ parse_line line = Some (k, v) /\
        k = (proto v ++ ":" ++ localAddress v ++ ":" ++ port v)%string /\
        localAddress v <> "" /\ port v <> "" /\
        includes_char (localAddress v) ":" = false /\ includes_char (port v) ":" = false /\
        (proto v = "TCP" -> nth_error (split_ws (trim line)) 3 = Some "LISTENING").
Proof.
  unfold getCurrentListeningPorts. eexists. split; [reflexivity|].
  destruct (netstat_fold (split_lines out) (split_lines out) [] (fun l h => h)
              (NoDup_nil _) (fun kv (H : In kv []) => match H with end)) as [Hnd Hin].
  split; [exact Hnd|]. intros k v Hkv.
  destruct (Hin _ Hkv) as (line & Hl & Hp). exists line. split; [exact Hl|].
  split; [exact Hp|]. exact (parse_line_spec _ _ _ Hp).
Qed.


Lemma includes_char_iff (s : string) (c : ascii) :
  includes_char s c = false <-> ~ In c (list_ascii_of_string s).
Proof.
  unfold includes_char. split.
  - intros H Hin. assert (existsb (fun x => Ascii.eqb x c) (list_ascii_of_string s) = true)
      by (apply existsb_exists; exists c; split; [exact Hin | apply Ascii.eqb_refl]).
    congruence.
  - intros H. apply Bool.not_true_iff_false. intros E.
    apply existsb_exists in E as (x & Hx & Ex). apply Ascii.eqb_eq in Ex. subst x. contradiction.
Qed.

Lemma trim_start_chars (s : string) (c : ascii) :
  In c (list_ascii_of_string (trim_start s)) -> In c (list_ascii_of_string s).
Proof.
  induction s as [|a s IH]; simpl; [tauto|].
  destruct (is_space a); simpl; auto.
Qed.

Lemma rev_string_chars (s : string) :
  list_ascii_of_string (rev_string s) = rev (list_ascii_of_string s).
Proof. unfold rev_string. apply list_ascii_of_string_of_list_ascii. Qed.

Lemma trim_chars (s : string) (c : ascii) :
  In c (list_ascii_of_string (trim s)) -> In c (list_ascii_of_string s).
Proof.
  unfold trim. rewrite rev_string_chars, <- in_rev.
  intros H. apply trim_start_chars in H. rewrite rev_string_chars, <- in_rev in H.
  apply trim_start_chars in H. exact H.
Qed.

Lemma split_ws_aux_chars (cs cur : list ascii) (b : bool) (x : list ascii) (c : ascii) :
  In x (split_ws_aux cs cur b) -> In c x ->
  (In c cs \/ In c cur) /\ ((forall d, In d cur -> is_space d = false) -> is_space c = false).
Proof.
  revert cur b. induction cs as [|a cs IH]; intros cur b; simpl.
  - intros [<-|[]] Hc. rewrite <- in_rev in Hc. auto.
  - destruct (is_space a) eqn:Ea.
    + assert (Hrest : In x (split_ws_aux cs [] true) -> In c x ->
                (In c (a :: cs) \/ In c cur) /\
                ((forall d, In d cur -> is_space d = false) -> is_space c = false)).
      { intros Hx Hc. destruct (IH [] true Hx Hc) as [[H|[]] Hs].
        split; [left; right; exact H | intros _; apply Hs; intros d []]. }
      simpl in Hrest. destruct b; [exact Hrest|].
      intros [<-|Hx] Hc; [|exact (Hrest Hx Hc)].
      rewrite <- in_rev in Hc. split; [right; exact Hc | intros Hcur; apply Hcur; exact Hc].
    + intros Hx Hc. destruct (IH (a :: cur) false Hx Hc) as [Hin Hs]. split.
      * simpl in Hin. tauto.
      * intros Hcur. apply Hs. intros d [<-|Hd]; auto.
Qed.

Lemma split_ws_token (s x : string) (c : ascii) :
  In x (split_ws s) -> In c (list_ascii_of_string x) ->
  In c (list_ascii_of_string s) /\ is_space c = false.
Proof.
  unfold split_ws. intros H. apply in_map_iff in H as (l & <- & Hl).
  rewrite list_ascii_of_string_of_list_ascii. intros Hc.
  destruct (split_ws_aux_chars _ [] false l c Hl Hc) as [[H|[]] Hs].
  split; [exact H | apply Hs; intros d []].
Qed.

Lemma set_add_spec (x : string) (s : list string) :
  (NoDup s -> NoDup (set_add x s)) /\ (forall y, In y (set_add x s) -> y = x \/ In y s).
Proof.
  unfold set_add. destruct (set_has x s) eqn:E; [split; auto|].
  split.
  - intros Hnd. apply NoDup_app; [exact Hnd | constructor; [intros []|constructor] |].
    intros y Hy [<-|[]]. apply AgentProofs.set_has_in in Hy. congruence.
  - intros y Hy. apply in_app_iff in Hy as [Hy|[<-|[]]]; auto.
Qed.

(** A name [net user] can report: non-empty, no ['-'], no whitespace. *)
Definition user_name_ok (u : string) : Prop :=
  u <> "" /\ includes_char u dash = false /\
  forallb (fun c => negb (is_space c)) (list_ascii_of_string u) = true.

Lemma users_fold (toks acc : list string) :
  NoDup acc -> (forall u, In u acc -> user_name_ok u) ->
  (forall t, In t toks -> t <> "" -> user_name_ok t) ->
  let r := fold_left (fun s p => if String.eqb p "" then s else set_add p s) toks acc in
  NoDup r /\ (forall u, In u r -> user_name_ok u).
Proof.
  revert acc. induction toks as [|t toks IH]; intros acc Hnd Hacc Ht; simpl; [auto|].
  apply IH; [| |intros t' H; apply Ht; right; exact H].
  - destruct (String.eqb t ""); [exact Hnd|]. apply (proj1 (set_add_spec t acc)). exact Hnd.
  - destruct (String.eqb t "") eqn:E; [exact Hacc|].
    intros u Hu. apply (proj2 (set_add_spec t acc)) in Hu as [->|Hu]; auto.
    apply Ht; [left; reflexivity | apply String.eqb_neq; exact E].
Qed.

Lemma users_loop_ok (lines : list string) (inList : bool) (acc : list string) :
  NoDup acc -> (forall u, In u acc -> user_name_ok u) ->
  NoDup (users_loop lines inList acc) /\
  (forall u, In u (users_loop lines inList acc) -> user_name_ok u).
Proof.
  revert inList acc. induction lines as [|line lines IH]; intros inList acc Hnd Hacc; simpl;
    [auto|].
  destruct (includes_char line dash) eqn:Hd; [apply IH; auto|].
  destruct (negb inList); [apply IH; auto|].
  destruct (String.eqb (trim line) ""); [apply IH; auto|].
  destruct (startsWith (trim line) "The command"); [auto|].
  destruct (users_fold (split_ws (trim line)) acc Hnd Hacc) as [H1 H2].
  - intros t Ht Hne. split; [exact Hne|]. split.
    + apply includes_char_iff. intros Hc.
      destruct (split_ws_token _ _ _ Ht Hc) as [Hc' _].
      apply trim_chars in Hc'. apply includes_char_iff in Hd. contradiction.
    + apply forallb_forall. intros c Hc.
      destruct (split_ws_token _ _ _ Ht Hc) as [_ Hs]. rewrite Hs. reflexivity.
  - apply IH; auto.
Qed.

(** Whatever [net user] prints, [getLocalUsers] returns distinct names,
    each non-empty, free of whitespace and without a ['-'] (a line holding a
    ['-'] is taken for the separator line, never as names). *)
Theorem local_users_wellformed (out : string) :
  exists us, getLocalUsers (Some out) = Some us /\ NoDup us /\
    forall u, In u us ->
      u <> "" /\ includes_char u dash = false /\
      forallb (fun c => negb (is_space c)) (list_ascii_of_string u) = true.
Proof.
  eexists. split; [reflexivity|].
  apply users_loop_ok; [constructor | intros u []].
Qed.

Lemma admins_loop_ok (lines : list string) (inList : bool) (acc : list string) :
  NoDup acc -> (forall a, In a acc -> a <> "" /\ includes_char a dash = false) ->
  NoDup (admins_loop lines inList acc) /\
  (forall a, In a (admins_loop lines inList acc) -> a <> "" /\ includes_char a dash = false).
Proof.
  revert inList acc. induction lines as [|line lines IH]; intros inList acc Hnd Hacc; simpl;
    [auto|].
  destruct (includes_char line dash) eqn:Hd; [apply IH; auto|].
  destruct (negb inList); [apply IH; auto|].
  destruct (String.eqb (trim line) "") eqn:He; [apply IH; auto|].
  destruct (startsWith (trim line) "The command"); [auto|].
  apply IH.
  - apply (proj1 (set_add_spec _ acc)). exact Hnd.
  - intros a Ha. apply (proj2 (set_add_spec _ acc)) in Ha as [->|Ha]; [|auto].
    split; [apply String.eqb_neq; exact He|].
    apply includes_char_iff. intros Hc. apply trim_chars in Hc.
    apply includes_char_iff in Hd. contradiction.
Qed.

(** Whatever [net localgroup administrators] prints, [getLocalAdmins]
    returns distinct members, each non-empty and without a ['-']. *)
Theorem local_admins_wellformed (out : string) :
  exists ads, getLocalAdmins (Some out) = Some ads /\ NoDup ads /\
    forall a, In a ads -> a <> "" /\ includes_char a dash = false.
Proof.
  eexists. split; [reflexivity|].
  apply admins_loop_ok; [constructor | intros a []].
Qed.

End ParserProofs.

(* ------------------------------------------------------------------ *)
(** ** What [collectFilesUnderRoot] collects *)

Module FileScanProofs.
Import FileScan.

Section FileScanProofs.
Variable join : string -> string -> string.
Variable basename : string -> string.
Variable excludeDirs : list string.

(** Induction over directory trees, with the entries of a listed directory. *)
Fixpoint fsnode_rect' (P : fsnode -> Prop)
    (HF : P FFile) (HO : P FOther) (HN : P (FDir None))
    (HS : forall es, Forall (fun e => P (snd e)) es -> P (FDir (Some es)))
    (n : fsnode) : P n :=
  match n with
  | FFile => HF
  | FOther => HO
  | FDir None => HN
  | FDir (Some es) =>
      HS es ((fix all (es : list (string * fsnode)) : Forall (fun e => P (snd e)) es :=
                match es with
                | [] => Forall_nil _
                | e :: es' => Forall_cons e (fsnode_rect' P HF HO HN HS (snd e)) (all es')
                end) es)
  end.

(** Node [m] sits at path [q] below node [n] at path [p], reached through
    directories that were listed and whose name is not excluded. *)
Inductive reach : string -> fsnode -> string -> fsnode -> Prop :=
| reach_here p n : reach p n p n
| reach_step p es name n q m :
    existsb (String.eqb (basename p)) excludeDirs = false ->
    In (name, n) es -> reach (join p name) n q m -> reach p (FDir (Some es)) q m.

Lemma walk_entries (p : string) (es : list (string * fsnode)) :
  walk join basename excludeDirs p (FDir (Some es)) =
  if existsb (String.eqb (basename p)) excludeDirs then []
  else flat_map (fun e => walk join basename excludeDirs (join p (fst e)) (snd e)) es.
Proof.
  simpl. destruct (existsb _ _); [reflexivity|].
  induction es as [|[name n] es IH]; [reflexivity|]. simpl.
  rewrite IH. destruct n; reflexivity.
Qed.

Lemma reach_file_inv (p q : string) (n : fsnode) :
  reach p n q FFile ->
  match n with
  | FFile => q = p
  | FOther => False
  | FDir None => False
  | FDir (Some es) =>
      existsb (String.eqb (basename p)) excludeDirs = false /\
      exists name c, In (name, c) es /\ reach (join p name) c q FFile
  end.
Proof.
  intros H. inversion H; subst; [reflexivity|]. split; [assumption|]. eauto.
Qed.

Lemma walk_reach (n : fsnode) : forall p q,
  In q (walk join basename excludeDirs p n) <-> reach p n q FFile.
Proof.
  induction n as [| | |es IH] using fsnode_rect'; intros p q.
  - simpl. split; [intros [<-|[]]; constructor|].
    intros H. apply reach_file_inv in H. left; congruence.
  - simpl. split; [intros []|intros H; apply reach_file_inv in H; contradiction].
  - simpl. destruct (existsb _ _); (split; [intros []|intros H; apply reach_file_inv in H; contradiction]).
  - rewrite walk_entries. destruct (existsb _ _) eqn:Ex.
    + split; [intros []|]. intros H. apply reach_file_inv in H as [H _]. congruence.
    + rewrite in_flat_map. split.
      * intros ([name c] & Hin & Hq). rewrite Forall_forall in IH.
        apply (IH (name, c) Hin) in Hq. exact (reach_step _ _ _ _ _ _ Ex Hin Hq).
      * intros H. apply reach_file_inv in H as (_ & name & c & Hin & Hr).
        exists (name, c). split; [exact Hin|]. rewrite Forall_forall in IH.
        apply (IH (name, c) Hin). exact Hr.
Qed.

(** [collectFilesUnderRoot] returns exactly the paths of the regular files
    reachable from the root through directories that could be listed and whose
    name is not in [excludeDirs]; an unreadable root gives nothing. *)
Theorem collect_files_exact (rootPath : string) (root : option fsnode) (q : string) :
  In q (collectFilesUnderRoot join basename rootPath root excludeDirs) <->
  exists n, root = Some n /\ reach rootPath n q FFile.
Proof.
  destruct root as [n|]; simpl.
  - rewrite walk_reach. split; [eauto|]. intros (n' & E & H). injection E as <-. exact H.
  - split; [intros []|]. intros (n' & E & _). discriminate.
Qed.

End FileScanProofs.

End FileScanProofs.

(* ------------------------------------------------------------------ *)
(** ** Concrete instances: every hypothesis above is satisfiable *)

Module Examples.
Import Ledger LedgerProofs NetworkAgent AccountAgent FileAgent AgentProofs Server ServerProofs.

(** A toy serialisation and digest: the identity on strings, and a digest
    that prefixes ["00"] (injective, and every digest meets difficulty 2). *)
Definition str_stringify (s : string) : string := s.
Definition toy_sha (s : string) : string := "00" ++ s.
Definition js_stringify (v : jsval) : string := "".
Definition zero_sha (s : string) : string := "00".

Lemma toy_sha_inj : forall s1 s2, toy_sha s1 = toy_sha s2 -> s1 = s2.
Proof. intros s1 s2. apply StringFacts.append_cancel_l. Qed.

Lemma str_stringify_inj : forall d1 d2, str_stringify d1 = str_stringify d2 -> d1 = d2.
Proof. intros d1 d2 H. exact H. Qed.

Definition chain2 : list (@Block string) :=
  match addBlocks str_stringify toy_sha "Genesis Block" 3 [("t1", "payload")]
          (initialChain str_stringify toy_sha "Genesis Block") with
  | Some c => c
  | None => []
  end.

Lemma chain_integrity_witness :
  addBlocks str_stringify toy_sha "Genesis Block" 3 [("t1", "payload")]
    (initialChain str_stringify toy_sha "Genesis Block") = Some chain2 /\
  isValid str_stringify toy_sha chain2 = true /\
  (forall (i : nat) (u : field_update),
     1 <= i < length chain2 ->
     apply_update u (nth i chain2 (genesis str_stringify toy_sha "Genesis Block"))
       <> nth i chain2 (genesis str_stringify toy_sha "Genesis Block") ->
     isValid str_stringify toy_sha (update_at i (apply_update u) chain2) = false).
Proof.
  assert (E : addBlocks str_stringify toy_sha "Genesis Block" 3 [("t1", "payload")]
               (initialChain str_stringify toy_sha "Genesis Block") = Some chain2)
    by (vm_compute; reflexivity).
  split; [exact E|].
  exact (chain_integrity str_stringify toy_sha "Genesis Block"
           toy_sha_inj str_stringify_inj 3 [("t1", "payload")] chain2 E).
Defined.

Lemma zero_sha_hex : forall s, is_hex (zero_sha s) = true.
Proof. intros s. reflexivity. Qed.

Definition mined : @Block string :=
  match mineBlock str_stringify zero_sha 2 (genesis str_stringify zero_sha "Genesis Block")
          "t1" "payload" with
  | Some b => b
  | None => genesis str_stringify zero_sha "Genesis Block"
  end.

Lemma mineBlock_correct_witness :
  mineBlock str_stringify zero_sha 2 (genesis str_stringify zero_sha "Genesis Block")
    "t1" "payload" = Some mined /\
  index mined = 1 /\ nonce mined = 1 /\
  hash mined = calculateHash str_stringify zero_sha (index mined) (timestamp mined)
                 (data mined) (previousHash mined) (nonce mined).
Proof.
  assert (E : mineBlock str_stringify zero_sha 2 (genesis str_stringify zero_sha "Genesis Block")
                "t1" "payload" = Some mined) by (vm_compute; reflexivity).
  pose proof (mineBlock_correct str_stringify zero_sha zero_sha_hex 2 _ _ _ _ E) as H.
  split; [exact E|].
  split; [exact (proj1 H)|]. split; [vm_compute; reflexivity|].
  exact (proj2 (proj2 (proj2 (proj2 (proj2 (proj2 H)))))).
Defined.

Lemma genesis_fields_unchecked_witness :
  (forall s, SetData "other" <> SetHash s) /\
  isValid str_stringify toy_sha (update_at 0 (apply_update (SetData "other")) chain2)
    = isValid str_stringify toy_sha chain2.
Proof.
  assert (Hu : forall s, @SetData string "other" <> SetHash s) by (intros s; discriminate).
  split; [exact Hu|].
  exact (proj1 (genesis_fields_unchecked str_stringify toy_sha chain2 (SetData "other") Hu)).
Defined.

Definition two_files : list (list (string * option string)) :=
  [[("a", Some "h1"); ("b", Some "h2")]].

Definition error_and_file : list (list (string * option string)) :=
  [[("a", None); ("b", Some "h2")]].

Lemma NoDup_ab (x y : option string) : NoDup (map fst (concat [[("a", x); ("b", y)]])).
Proof.
  simpl. constructor.
  - intros [H|[]]; discriminate H.
  - constructor; [intros []|constructor].
Qed.

Lemma baseline_poll_events_witness :
  NoDup (map fst (concat two_files)) /\
  runFileIntegrityCheck "t" two_files [] =
  (readable (concat two_files), map (first_poll_event "t") (concat two_files)).
Proof.
  split; [apply NoDup_ab|].
  exact (proj2 (proj2 baseline_poll_events) "t" two_files (NoDup_ab _ _)).
Defined.

Lemma baseline_after_poll_witness :
  NoDup (map fst (concat two_files)) /\
  JsMap.get "a" (fst (runFileIntegrityCheck "t" two_files [("a", "h0")])) = Some "h1".
Proof.
  split; [apply NoDup_ab|].
  exact (proj2 (proj2 baseline_after_poll) "t" two_files [("a", "h0")] "a" (NoDup_ab _ _)).
Defined.

Lemma collection_failure_witness :
  NoDup (map fst (concat error_and_file)) /\ In ("a", None) (concat error_and_file) /\
  JsMap.get "a" (fst (runFileIntegrityCheck "t" error_and_file [("a", "h0")])) = Some "h0".
Proof.
  assert (Hin : In ("a", None) (concat error_and_file)) by (left; reflexivity).
  split; [apply NoDup_ab|]. split; [exact Hin|].
  exact (proj1 (proj2 (proj2 collection_failure) "t" error_and_file [("a", "h0")] "a"
                  (NoDup_ab _ _) Hin)).
Defined.

Lemma empty_queue_seal_witness :
  pendingEvents (Server.initialState js_stringify toy_sha) = [] /\
  Server.post_mine js_stringify toy_sha 1 "t" (Server.initialState js_stringify toy_sha)
  = Some (mkResponse 400 (BodyError "No pending events to mine"),
          Server.initialState js_stringify toy_sha).
Proof.
  assert (H : pendingEvents (Server.initialState js_stringify toy_sha) = []) by reflexivity.
  split; [exact H|].
  exact (proj2 (empty_queue_seal js_stringify toy_sha 1 "t" _ H)).
Defined.

Definition scenario_result : option (Response * State) :=
  Server.post_mine js_stringify toy_sha 1 "t2"
    (snd (post_events "t1" login_failed_body (Server.initialState js_stringify toy_sha))).

Definition scenario_response : Response :=
  match scenario_result with Some (r, _) => r | None => mkResponse 0 (BodyError "") end.

Definition scenario_state : State :=
  match scenario_result with
  | Some (_, st) => st
  | None => Server.initialState js_stringify toy_sha
  end.

Lemma login_failed_scenario_witness :
  scenario_result = Some (scenario_response, scenario_state) /\
  length (chain scenario_state) = 2 /\
  get_pending scenario_state = mkResponse 200 (BodyPending 0 []).
Proof.
  assert (E : scenario_result = Some (scenario_response, scenario_state))
    by (vm_compute; reflexivity).
  pose proof (login_failed_scenario js_stringify toy_sha 1 "t1" "t2" _ _ E) as H.
  split; [exact E|].
  split; [exact (proj1 (proj2 (proj2 H)))|].
  exact (proj2 (proj2 (proj2 (proj2 H)))).
Defined.

Definition empty_type_body : jsval :=
  JSObj [("type", JSStr ""); ("source", JSStr "auth-service")].

Lemma intake_validation_witness :
  ~ (nonempty_string (get empty_type_body "type") /\
     nonempty_string (get empty_type_body "source") /\
     details_ok (get empty_type_body "details")) /\
  status (fst (post_events "t" empty_type_body (Server.initialState js_stringify toy_sha)))
    = 400.
Proof.
  assert (Hn : ~ (nonempty_string (get empty_type_body "type") /\
                  nonempty_string (get empty_type_body "source") /\
                  details_ok (get empty_type_body "details")))
    by (intros [H _]; apply H; reflexivity).
  split; [exact Hn|].
  pose proof (intake_validation "t" empty_type_body (Server.initialState js_stringify toy_sha))
    as T.
  exact (proj1 (proj2 T Hn)).
Defined.

End Examples.

(* ------------------------------------------------------------------ *)
(** ** Concrete instances of the further properties *)

Module ExtraExamples.
Import Ledger NetworkAgent AccountAgent FileAgent Server ServerOps Netstat Examples.

(** One block mined on top of the genesis block. *)
Definition added : @Block string * list (@Block string) :=
  match addBlock str_stringify toy_sha "Genesis Block" 3 "t1" "payload"
          (initialChain str_stringify toy_sha "Genesis Block") with
  | Some p => p
  | None => (genesis str_stringify toy_sha "Genesis Block", [])
  end.

Lemma addBlock_preserves_validity_witness :
  addBlock str_stringify toy_sha "Genesis Block" 3 "t1" "payload"
    (initialChain str_stringify toy_sha "Genesis Block") = Some (fst added, snd added) /\
  isValid str_stringify toy_sha (snd added) =
    isValid str_stringify toy_sha (initialChain str_stringify toy_sha "Genesis Block").
Proof.
  assert (E : addBlock str_stringify toy_sha "Genesis Block" 3 "t1" "payload"
                (initialChain str_stringify toy_sha "Genesis Block")
              = Some (fst added, snd added)) by (vm_compute; reflexivity).
  split; [exact E|].
  exact (proj1 (LedgerExtra.addBlock_preserves_validity str_stringify toy_sha "Genesis Block"
                  3 "t1" "payload" _ _ _ E)).
Defined.

(** A port listening on TCP 80. *)
Definition ports1 : PortMap :=
  [("TCP:0.0.0.0:80", mkPortInfo "TCP" "0.0.0.0" "80" (JSStr "4"))].

(** An event, a ports poll, [POST /mine], a files poll and the timer's mining. *)
Definition ops1 : list Op :=
  [PostEvents "t1" ServerProofs.login_failed_body; NetworkTick "t2" (Some ports1);
   PostMine "t3"; FileTick "t4" two_files; AutoMine "t5"].

Definition after_ops1 : State :=
  match run js_stringify toy_sha 1 ops1 (Server.initialState js_stringify toy_sha) with
  | Some st => st
  | None => Server.initialState js_stringify toy_sha
  end.

Lemma service_chain_invariant_witness :
  run js_stringify toy_sha 1 ops1 (Server.initialState js_stringify toy_sha)
    = Some after_ops1 /\
  length (chain after_ops1) = 3 /\
  get_verify js_stringify toy_sha after_ops1 = (true, length (chain after_ops1)).
Proof.
  assert (E : run js_stringify toy_sha 1 ops1 (Server.initialState js_stringify toy_sha)
              = Some after_ops1) by (vm_compute; reflexivity).
  split; [exact E|]. split; [vm_compute; reflexivity|].
  exact (proj1 (ServerOpsProofs.service_chain_invariant js_stringify toy_sha 1 ops1 _ E)).
Defined.

(** The state after the event has been queued. *)
Definition queued : State :=
  snd (post_events "t1" ServerProofs.login_failed_body (Server.initialState js_stringify toy_sha)).

Definition mined_state : State :=
  match step js_stringify toy_sha 1 (PostMine "t3") queued with
  | Some st => st
  | None => queued
  end.

Lemma operations_append_only_witness :
  step js_stringify toy_sha 1 (PostMine "t3") queued = Some mined_state /\
  (chain mined_state = chain queued \/ exists b, chain mined_state = (chain queued ++ [b])%list).
Proof.
  assert (E : step js_stringify toy_sha 1 (PostMine "t3") queued = Some mined_state)
    by (vm_compute; reflexivity).
  split; [exact E|].
  exact (proj2 (ServerOpsProofs.operations_append_only js_stringify toy_sha 1 _ _ _ E)).
Defined.

Lemma events_conserved_witness :
  chain queued <> [] /\
  step js_stringify toy_sha 1 (PostMine "t3") queued = Some mined_state /\
  exists evs, ServerOpsProofs.ledger_log mined_state =
              (ServerOpsProofs.ledger_log queued ++ map event_to_js evs)%list /\
              (ServerOpsProofs.is_mine (PostMine "t3") = true -> evs = []).
Proof.
  assert (Hne : chain queued <> []) by (vm_compute; discriminate).
  assert (E : step js_stringify toy_sha 1 (PostMine "t3") queued = Some mined_state)
    by (vm_compute; reflexivity).
  split; [exact Hne|]. split; [exact E|].
  exact (ServerOpsProofs.events_conserved js_stringify toy_sha 1 _ _ _ Hne E).
Defined.

Lemma network_repeat_poll_witness :
  NoDup (map fst ports1) /\
  runNetworkCheck "t2" (Some ports1) (fst (runNetworkCheck "t1" (Some ports1) []))
    = (fst (runNetworkCheck "t1" (Some ports1) []), []).
Proof.
  assert (Hnd : NoDup (map fst ports1)) by (constructor; [intros []|constructor]).
  split; [exact Hnd|].
  pose proof (AgentExtra.network_repeat_poll "t1" "t2" ports1 [] Hnd) as H.
  destruct (runNetworkCheck "t1" (Some ports1) []) as [m evs]. simpl.
  apply (proj1 H). discriminate.
Defined.

Lemma file_poll_events_witness :
  NoDup (map fst (concat two_files)) /\
  snd (runFileIntegrityCheck "t" two_files [("a", "h0")]) =
  flat_map (fun f => AgentExtra.file_event "t" (JsMap.get (fst f) [("a", "h0")]) f)
    (concat two_files).
Proof.
  split; [apply NoDup_ab|].
  exact (AgentExtra.file_poll_events "t" two_files [("a", "h0")] (NoDup_ab _ _)).
Defined.

Lemma file_repeat_poll_witness :
  NoDup (map fst (concat two_files)) /\
  runFileIntegrityCheck "t2" two_files (fst (runFileIntegrityCheck "t1" two_files []))
  = (fst (runFileIntegrityCheck "t1" two_files []),
     AgentExtra.unreadable_events "t2" (concat two_files)).
Proof.
  split; [apply NoDup_ab|].
  pose proof (AgentExtra.file_repeat_poll "t1" "t2" two_files [] (NoDup_ab _ _)) as H.
  destruct (runFileIntegrityCheck "t1" two_files []) as [m evs]. exact H.
Defined.



End ExtraExamples.
